(** * first_classes.py: persons, adults, children and the cousin grade

    A shallow embedding of [src/first_classes.py].  Python objects live in a
    store (an arena indexed by object identity); a reference is the index of
    an object.  The read-only query [cousin_grade] and the mutating methods
    of [Adult] and [Child] are translated function by function.  The
    definitions come first, the lemmas about them next, the properties of
    the program last. *)

From stdpp Require Import base option list strings gmap sets fin_sets relations.
From Stdlib Require Import ZArith Lia.

Local Open Scope Z_scope.
Local Open Scope nat_scope.

Set Warnings "-clear-no-such-hyp".

(** * The program

    ** Data model *)

(** [class Sex(Enum)] *)
Inductive Sex := Male | Female.

#[global] Instance Sex_eq_dec : EqDecision Sex.
Proof. solve_decision. Defined.

(** The [value] of an enumeration member. *)
Definition Sex_value (s : Sex) : string :=
  match s with Male => "m" | Female => "f" end.

(** Object identity. *)
Abbreviation ref := nat.

(** The class of an instance; it decides which methods exist on it. *)
Inductive class := PersonClass | AdultClass | ChildClass.

#[global] Instance class_eq_dec : EqDecision class.
Proof. solve_decision. Defined.

(** An instance.  [name], [sex], [mother] and [father] are set by
    [Person.__init__], so every instance has them.  The attributes of the
    subclasses exist only after the subclass constructor (or an assignment)
    has set them: the outer [option] says whether the attribute exists, the
    inner one of [married_to] and [school] is Python's [None]. *)
Record Person := mkPerson {
  cls : class;
  name : string;
  sex : Sex;
  mother : option ref;
  father : option ref;
  job : option string;
  married_to : option (option ref);
  children_list : option (list ref);
  school : option (option string)
}.

(** The store: object [r] is the [r]-th entry. *)
Abbreviation store := (list Person).

(** [Person.__init__(name, sex)] *)
Definition Person_init (c : class) (nm : string) (sx : Sex) : Person :=
  {| cls := c; name := nm; sex := sx; mother := None; father := None;
     job := None; married_to := None; children_list := None; school := None |}.

(** [Adult.__init__(nume, sex, job)] *)
Definition Adult_init (nume : string) (sx : Sex) (jb : string) : Person :=
  let self := Person_init AdultClass nume sx in
  {| cls := cls self; name := name self; sex := sex self;
     mother := mother self; father := father self;
     job := Some jb; married_to := Some None; children_list := Some [];
     school := school self |}.

(** [Child.__init__(nume, sex, school, mother, father)] *)
Definition Child_init (nume : string) (sx : Sex) (sch : string)
    (mo fa : ref) : Person :=
  let self := Person_init ChildClass nume sx in
  {| cls := cls self; name := name self; sex := sex self;
     mother := Some mo; father := Some fa;
     job := job self; married_to := married_to self;
     children_list := children_list self; school := Some (Some sch) |}.

(** Allocation of a new object: its identity is the next free index. *)
Definition alloc (h : store) (o : Person) : ref * store := (length h, h ++ [o]).

(** Reading [r.father] and [r.mother].  Every instance has both attributes.
    A reference outside the store denotes no object; it reads as [None]
    here, so the query below is defined on every store, in particular on
    the closed ones that Python can build. *)
Definition get_father (h : store) (r : ref) : option ref := h !! r ≫= father.
Definition get_mother (h : store) (r : ref) : option ref := h !! r ≫= mother.

(** The instance [o] with one attribute replaced. *)
Definition with_father (o : Person) (v : option ref) : Person :=
  {| cls := cls o; name := name o; sex := sex o; mother := mother o;
     father := v; job := job o; married_to := married_to o;
     children_list := children_list o; school := school o |}.

Definition with_mother (o : Person) (v : option ref) : Person :=
  {| cls := cls o; name := name o; sex := sex o; mother := v;
     father := father o; job := job o; married_to := married_to o;
     children_list := children_list o; school := school o |}.

(** Attribute assignment [r.father = v] and [r.mother = v], as the script
    does at module level.  Python performs no check of any kind. *)
Definition set_father (h : store) (r : ref) (v : option ref) : store :=
  match h !! r with
  | Some o => <[r := with_father o v]> h
  | None => h
  end.

Definition set_mother (h : store) (r : ref) (v : option ref) : store :=
  match h !! r with
  | Some o => <[r := with_mother o v]> h
  | None => h
  end.

(** ** The cousin grade *)

(** A set of objects: Python's [set] hashes a [Person] by identity. *)
Abbreviation refset := (gset ref).

(** The [while current_person:] loop of [get_ascendants].  [rec] is the
    recursive call, [k] bounds the number of iterations.  A [Person] is
    always truthy, so the loop leaves only through
    [current_person = None]. *)
Fixpoint ascend_loop (rec : ref → option refset) (k : nat) (h : store)
    (current_person : ref) (ascendants : refset) : option refset :=
  match k with
  | 0 => None
  | S k =>
    let father := get_father h current_person in
    let mother := get_mother h current_person in
    ascendants ←
      match father with
      | Some f => up ← rec f; Some (ascendants ∪ {[f]} ∪ up)
      | None => Some ascendants
      end;
    ascendants ←
      match mother with
      | Some m => up ← rec m; Some (ascendants ∪ {[m]} ∪ up)
      | None => Some ascendants
      end;
    match father, mother with
    | None, None => Some ascendants
    | Some f, _ => ascend_loop rec k h f ascendants
    | None, Some m => ascend_loop rec k h m ascendants
    end
  end.

(** [get_ascendants(person)]; [None] is "the budget ran out". *)
Fixpoint get_ascendants (fuel : nat) (h : store) (person : ref)
    : option refset :=
  match fuel with
  | 0 => None
  | S fuel => ascend_loop (get_ascendants fuel h) fuel h person ∅
  end.

(** The body of [for ascendant in common_ascendants:]. *)
Definition add_parents (h : store) (ascendant : ref)
    (new_common_ascendants : refset) : refset :=
  let new_common_ascendants :=
    match get_father h ascendant with
    | Some f => new_common_ascendants ∪ {[f]}
    | None => new_common_ascendants
    end in
  match get_mother h ascendant with
  | Some m => new_common_ascendants ∪ {[m]}
  | None => new_common_ascendants
  end.

(** One pass of the [for] loop, from the empty set. *)
Definition parents_of (h : store) (common_ascendants : refset) : refset :=
  set_fold (add_parents h) ∅ common_ascendants.

(** The [while common_ascendants:] loop. *)
Fixpoint grade_loop (fuel : nat) (h : store) (common_ascendants : refset)
    (grade : Z) : option Z :=
  match fuel with
  | 0 => None
  | S fuel =>
    if decide (common_ascendants = ∅) then Some grade
    else
      let grade := (grade + 1)%Z in
      let new_common_ascendants := parents_of h common_ascendants in
      grade_loop fuel h new_common_ascendants grade
  end.

(** [cousin_grade(person1, person2)] *)
Definition cousin_grade (fuel : nat) (h : store) (person1 person2 : ref)
    : option Z :=
  ascendants1 ← get_ascendants fuel h person1;
  ascendants2 ← get_ascendants fuel h person2;
  let common_ascendants := ascendants1 ∩ ascendants2 in
  if decide (size common_ascendants = 0) then Some (-1)%Z
  else grade_loop fuel h common_ascendants 0%Z.

(** ** Exceptions, and the methods of [Adult] and [Child] *)

(** The exceptions the methods can raise.  [ValueError] carries the message
    of the [raise] statement. *)
Inductive exn :=
  | ValueError (msg : string)
  | AttributeError
  | IndexError.

(** A call either returns a value or raises; both leave a store behind. *)
Inductive outcome (A : Type) :=
  | Return (v : A) (h : store)
  | Raise (e : exn) (h : store).
Arguments Return {A} v h.
Arguments Raise {A} e h.

(** The store a call leaves, returning or raising. *)
Definition state_after {A} (o : outcome A) : store :=
  match o with Return _ h => h | Raise _ h => h end.

(** Computations over the store that may raise. *)
Definition M (A : Type) : Type := store → outcome A.

Definition ret {A} (v : A) : M A := λ h, Return v h.
Definition raise {A} (e : exn) : M A := λ h, Raise e h.
Definition bind {A B} (m : M A) (k : A → M B) : M B :=
  λ h, match m h with
       | Return v h' => k v h'
       | Raise e h' => Raise e h'
       end.

Notation "'let!' x ':=' m 'in' k" := (bind m (λ x, k))
  (at level 10, x pattern, m at level 100, k at level 200).
Notation "m ';;' k" := (bind m (λ _, k))
  (at level 100, k at level 200, right associativity).

(** Reading an attribute: [field] says whether the instance has it.  A
    reference outside the store has no attributes. *)
Definition getattr {A} (field : Person → option A) (r : ref) : M A :=
  λ h, match h !! r ≫= field with
       | Some v => Return v h
       | None => Raise AttributeError h
       end.

(** Assigning an attribute of an existing instance always succeeds. *)
Definition setattr (upd : Person → Person) (r : ref) : M unit :=
  λ h, match h !! r with
       | Some o => Return () (<[r := upd o]> h)
       | None => Raise AttributeError h
       end.

(** Instantiation. *)
Definition new (o : Person) : M ref :=
  λ h, Return (fst (alloc h o)) (snd (alloc h o)).

(** Looking up a method of class [c] on [self]: no class of the file
    inherits from [Adult] or [Child], so the instance must be of class [c]
    itself. *)
Definition method_of (c : class) (self : ref) : M unit :=
  let! k := getattr (λ o, Some (cls o)) self in
  if decide (k = c) then ret () else raise AttributeError.

Definition with_married_to (o : Person) (v : option ref) : Person :=
  {| cls := cls o; name := name o; sex := sex o; mother := mother o;
     father := father o; job := job o; married_to := Some v;
     children_list := children_list o; school := school o |}.

Definition with_children_list (o : Person) (l : list ref) : Person :=
  {| cls := cls o; name := name o; sex := sex o; mother := mother o;
     father := father o; job := job o; married_to := married_to o;
     children_list := Some l; school := school o |}.

Definition with_school (o : Person) (v : option string) : Person :=
  {| cls := cls o; name := name o; sex := sex o; mother := mother o;
     father := father o; job := job o; married_to := married_to o;
     children_list := children_list o; school := Some v |}.

Definition get_sex : ref → M Sex := getattr (λ o, Some (sex o)).
Definition get_name : ref → M string := getattr (λ o, Some (name o)).
Definition get_married_to : ref → M (option ref) := getattr married_to.
Definition get_children_list : ref → M (list ref) := getattr children_list.

(** [r.children_list.append(c)] *)
Definition children_append (r c : ref) : M unit :=
  let! l := get_children_list r in
  setattr (λ o, with_children_list o (l ++ [c])) r.

(** [r.children_list.index(c)]: the first position holding the object [c];
    the message of the [ValueError] is given without the [repr] of [c]. *)
Definition children_index (r c : ref) : M nat :=
  let! l := get_children_list r in
  match list_find (λ x, x = c) l with
  | Some (i, _) => ret i
  | None => raise (ValueError "is not in list")
  end.

(** [r.children_list[i] = c] *)
Definition children_setitem (r : ref) (i : nat) (c : ref) : M unit :=
  let! l := get_children_list r in
  if decide (i < length l)
  then setattr (λ o, with_children_list o (<[i := c]> l)) r
  else raise IndexError.

(** The attribute [x.children_list] of an optional reference [x]: [None]
    has no attributes. *)
Definition deref (x : option ref) : M ref :=
  match x with Some r => ret r | None => raise AttributeError end.

(** [Adult.have_child_with(self, other_person, child_name, sex_child, school)] *)
Definition have_child_with (self other_person : ref) (child_name : string)
    (sex_child : Sex) (school : string) : M ref :=
  method_of AdultClass self;;
  let! s1 := get_sex self in
  let! s2 := get_sex other_person in
  if decide (s1 = s2)
  then raise (ValueError
    "Reproduction is not possible between two people of the same sex")
  else
    let! child := new (Child_init child_name sex_child school
                         self other_person) in
    children_append self child;;
    children_append other_person child;;
    ret child.

(** [Adult.marriage(self, other_person)] *)
Definition marriage (self other_person : ref) : M unit :=
  method_of AdultClass self;;
  let! m1 := get_married_to self in
  let! taken :=
    match m1 with
    | Some _ => ret true
    | None => let! m2 := get_married_to other_person in
              ret (bool_decide (m2 ≠ None))
    end in
  if (taken : bool)
  then raise (ValueError "Both adults must be divorced to get married")
  else
    let! s1 := get_sex self in
    let! s2 := get_sex other_person in
    if decide (s1 = s2)
    then raise (ValueError
      "The marriage between two people with the same sex is not possible")
    else
      setattr (λ o, with_married_to o (Some other_person)) self;;
      setattr (λ o, with_married_to o (Some self)) other_person.

(** [Adult.divorce(self, other_person)] *)
Definition divorce (self other_person : ref) : M unit :=
  method_of AdultClass self;;
  let! m := get_married_to self in
  match m with
  | Some spouse =>
    if decide (spouse = other_person)
    then
      setattr (λ o, with_married_to o None) self;;
      setattr (λ o, with_married_to o None) other_person
    else ret ()
  | None => ret ()
  end.

(** [Child.become_adult(self, job)] *)
Definition become_adult (self : ref) (jb : string) : M ref :=
  method_of ChildClass self;;
  let! nm := get_name self in
  let! sx := get_sex self in
  let! adult := new (Adult_init nm sx jb) in
  let! mo := (λ h, deref (get_mother h self) h) in
  let! index_in_mother := children_index mo self in
  let! fa := (λ h, deref (get_father h self) h) in
  let! index_in_father := children_index fa self in
  let! mo := (λ h, deref (get_mother h self) h) in
  children_setitem mo index_in_mother adult;;
  let! fa := (λ h, deref (get_father h self) h) in
  children_setitem fa index_in_father adult;;
  setattr (λ o, with_school o None) self;;
  ret adult.

(** The module-level script, first half: the four adults and the four
    children.  It returns [adult1], [adult2] and [child1]. *)
Definition script_births : M (ref * ref * ref) :=
  let! adult1 := new (Adult_init "Ion" Male "engineer") in
  let! adult2 := new (Adult_init "Elena" Female "doctor") in
  let! adult3 := new (Adult_init "Bogdan" Male "lawyer") in
  let! adult4 := new (Adult_init "Ana" Female "teacher") in
  marriage adult1 adult2;;
  divorce adult2 adult1;;
  marriage adult2 adult3;;
  let! child1 := have_child_with adult2 adult1 "Alex" Male "Primary School" in
  let! child2 := have_child_with adult4 adult1 "Ioana" Female "High school " in
  let! child3 :=
    have_child_with adult2 adult1 "Alexandra" Female "Primary School" in
  let! child4 := have_child_with adult2 adult3 "Ionel" Male "High school" in
  ret (adult1, adult2, child1).

(** The rest of the script up to its last line; it returns [adult1],
    [adult2], [child1] and [new_adult]. *)
Definition script : M (ref * ref * ref * ref) :=
  let! born := script_births in
  let '(adult1, adult2, child1) := born in
  let! new_adult := become_adult child1 "dancer" in
  let! parent1 := new (Person_init PersonClass "Vasile" Male) in
  let! parent2 := new (Person_init PersonClass "Maria" Female) in
  let! parent3 := new (Person_init PersonClass "Gheorghe" Male) in
  let! parent4 := new (Person_init PersonClass "Mihaela" Female) in
  let! parent5 := new (Person_init PersonClass "Ioan" Male) in
  (λ h, Return () (set_mother h adult1 (Some parent2)));;
  (λ h, Return () (set_father h adult1 (Some parent1)));;
  (λ h, Return () (set_mother h adult2 (Some parent3)));;
  (λ h, Return () (set_father h adult2 (Some parent4)));;
  (λ h, Return () (set_father h parent1 (Some parent5)));;
  (λ h, Return () (set_father h parent4 (Some parent5)));;
  ret (adult1, adult2, child1, new_adult).

(** The stores the two halves of the script leave. *)
Definition births_store : store := state_after (script_births []).
Definition script_store : store := state_after (script []).

(** * Vocabulary of the properties

    ** The parent graph and termination *)

(** [p] is the father or the mother of [c]. *)
Definition parent (h : store) (c p : ref) : Prop :=
  get_father h c = Some p ∨ get_mother h c = Some p.

(** [a] is reached from [c] by one or more parent edges. *)
Definition ancestor (h : store) : relation ref := tc (parent h).

(** No node is its own ancestor. *)
Definition acyclic (h : store) : Prop := ∀ x, ¬ ancestor h x x.

(** The set [A] holds exactly the ancestors of [p]. *)
Definition ancestors_are (h : store) (p : ref) (A : refset) : Prop :=
  ∀ x, x ∈ A ↔ ancestor h p x.

(** [f] returns [v] on every budget from [n] on. *)
Definition returns_from {A} (f : nat → option A) (n : nat) (v : A) : Prop :=
  ∀ fuel, n ≤ fuel → f fuel = Some v.

(** [f] returns [v]: some budget is enough, and so is every larger one. *)
Definition returns {A} (f : nat → option A) (v : A) : Prop :=
  ∃ n, returns_from f n v.

(** The recursive call [rec] is right at [y]. *)
Definition right_at (h : store) (rec : ref → option refset) (y : ref) : Prop :=
  ∃ A, rec y = Some A ∧ ancestors_are h y A.

(** The frontier after [k] passes: the [k]-th generation above [C]. *)
Definition generation (h : store) (k : nat) (C : refset) : refset :=
  Nat.iter k (parents_of h) C.

(** [k] is the number of the first empty generation above [C]. *)
Definition first_empty (h : store) (C : refset) (k : nat) : Prop :=
  generation h k C = ∅ ∧ ∀ j, j < k → generation h j C ≠ ∅.

(** ** The climb as the specification words it *)

(** In the words of the specification, "the set of parents of all nodes
    currently in common (union over both father and mother edges of every
    member)"; to be compared with [parents_of], which follows the code. *)
Definition spec_parents (h : store) (common : refset) : refset :=
  list_to_set (omap (get_father h) (elements common)) ∪
  list_to_set (omap (get_mother h) (elements common)).

(** In the words of the specification: replace [common] by the parents of
    its members, incrementing the grade each iteration, until the
    replacement set is empty; the result is the number of iterations
    performed.  To be compared with [grade_loop], which follows the code. *)
Fixpoint spec_climb (fuel : nat) (h : store) (common : refset) (grade : Z)
    : option Z :=
  match fuel with
  | 0 => None
  | S fuel =>
    let replacement := spec_parents h common in
    let grade := (grade + 1)%Z in
    if decide (replacement = ∅) then Some grade
    else spec_climb fuel h replacement grade
  end.

(** ** Frames and invariants of the methods *)

(** Every reference reads the same father and mother in [h'] as in [h]. *)
Definition same_parents (h h' : store) : Prop :=
  ∀ x, get_father h' x = get_father h x ∧ get_mother h' x = get_mother h x.

(** A computation that never changes what a reference reads as its father
    or mother, whether it returns or raises. *)
Definition keeps_parents {A} (m : M A) : Prop :=
  ∀ h, same_parents h (state_after (m h)).

Create HintDb keeps discriminated.

(** Reading [r.children_list], [r.married_to] and [r.school]; the outer
    [None] is "no such attribute". *)
Definition get_children (h : store) (r : ref) : option (list ref) :=
  h !! r ≫= children_list.
Definition get_spouse (h : store) (r : ref) : option (option ref) :=
  h !! r ≫= married_to.
Definition get_school (h : store) (r : ref) : option (option string) :=
  h !! r ≫= school.

(** Nobody is married to themselves. *)
Definition no_self_marriage (h : store) : Prop :=
  ∀ r, get_spouse h r ≠ Some (Some r).

(** [r] has a spouse: [r.married_to is not None]. *)
Definition married (h : store) (r : ref) : Prop :=
  ∃ s, get_spouse h r = Some (Some s).

(** [r] is an instance that [Adult.__init__] has initialised. *)
Definition is_Adult (h : store) (r : ref) : Prop :=
  ∃ o, h !! r = Some o ∧ cls o = AdultClass ∧ is_Some (job o) ∧
    is_Some (married_to o) ∧ is_Some (children_list o).

(** Calls of the two methods, and running them in sequence; a call that
    raises leaves the store it raised in, and the sequence goes on. *)
Inductive call :=
  | Marriage (self other_person : ref)
  | Divorce (self other_person : ref).

Definition perform (c : call) (h : store) : store :=
  match c with
  | Marriage a b => state_after (marriage a b h)
  | Divorce a b => state_after (divorce a b h)
  end.

Definition perform_all (cs : list call) (h : store) : store :=
  foldl (λ h c, perform c h) h cs.

(** ** Checks that decide the hypotheses on a given store *)

(** Every parent has a larger rank than its child. *)
Definition ranked (rk : ref → nat) (h : store) : Prop :=
  ∀ c p, parent h c p → rk c < rk p.

(** The parent [o] of [c], if any, has a larger rank than [c]. *)
Definition rank_above (rk : ref → nat) (c : ref) (o : option ref) : bool :=
  match o with Some p => bool_decide (rk c < rk p) | None => true end.

(** [rank_above] holds for the father and the mother of every object. *)
Definition rank_check (rk : ref → nat) (h : store) : bool :=
  forallb (λ c, rank_above rk c (get_father h c) &&
                rank_above rk c (get_mother h c)) (seq 0 (length h)).

(** The generation of each person of the script, counted from the children. *)
Definition script_rank (r : ref) : nat :=
  nth r [1; 1; 1; 1; 0; 0; 0; 0; 1; 2; 2; 2; 2; 3] 0.

(** Nobody in the store is their own spouse. *)
Definition no_self_check (h : store) : bool :=
  forallb (λ r, bool_decide (get_spouse h r ≠ Some (Some r)))
    (seq 0 (length h)).

(** ** Vocabulary of the further properties *)

(** Reading [r.sex], [r.name] and the class of [r]. *)
Definition get_sex_of (h : store) (r : ref) : option Sex := sex <$> h !! r.
Definition get_name_of (h : store) (r : ref) : option string :=
  name <$> h !! r.
Definition get_class (h : store) (r : ref) : option class := cls <$> h !! r.

(** Marriage is mutual: whoever has a spouse is the spouse of that spouse. *)
Definition mutual (h : store) : Prop :=
  ∀ a b, get_spouse h a = Some (Some b) → get_spouse h b = Some (Some a).

(** [mutual] on a given store, decided entry by entry. *)
Definition mutual_check (h : store) : bool :=
  forallb (λ a, match get_spouse h a with
                | Some (Some b) => bool_decide (get_spouse h b = Some (Some a))
                | _ => true
                end) (seq 0 (length h)).

(** Two instances that differ at most in their [children_list]. *)
Definition same_but_children (o o' : Person) : Prop :=
  with_children_list o' [] = with_children_list o [].

(** Every parent link points into the store. *)
Definition closed (h : store) : Prop := ∀ c p, parent h c p → p < length h.

(** A computation whose final store, returning or raising, is related by
    [R] to the store it starts in. *)
Definition preserves {A} (R : relation store) (m : M A) : Prop :=
  ∀ h, R h (state_after (m h)).

(** No object disappears. *)
Definition no_shorter (h h' : store) : Prop := length h ≤ length h'.

(** [h'] is [h] with the parent links of its objects untouched and, maybe,
    new objects whose parents are objects of [h]. *)
Definition grown (h h' : store) : Prop :=
  length h ≤ length h' ∧
  (∀ x, x < length h →
     get_father h' x = get_father h x ∧ get_mother h' x = get_mother h x) ∧
  (∀ x p, length h ≤ x → parent h' x p → p < length h).

(** What a program can do without assigning attributes itself: create a
    [Person] or an [Adult], and call the four methods. *)
Inductive action :=
  | CallPerson (nm : string) (sx : Sex)
  | CallAdult (nm : string) (sx : Sex) (jb : string)
  | CallHaveChildWith (p q : ref) (nm : string) (sx : Sex) (sch : string)
  | CallMarriage (a b : ref)
  | CallDivorce (a b : ref)
  | CallBecomeAdult (c : ref) (jb : string).

(** The store after an action; an exception is caught and the program
    goes on. *)
Definition act (a : action) (h : store) : store :=
  match a with
  | CallPerson nm sx => state_after (new (Person_init PersonClass nm sx) h)
  | CallAdult nm sx jb => state_after (new (Adult_init nm sx jb) h)
  | CallHaveChildWith p q nm sx sch =>
    state_after (have_child_with p q nm sx sch h)
  | CallMarriage a b => state_after (marriage a b h)
  | CallDivorce a b => state_after (divorce a b h)
  | CallBecomeAdult c jb => state_after (become_adult c jb h)
  end.

Definition act_all (l : list action) (h : store) : store :=
  foldl (λ h a, act a h) h l.

(** No object disappears and the objects of [h] keep their value of the
    attribute (or function of attributes) [f]. *)
Definition same_on {B} (f : Person → B) (h h' : store) : Prop :=
  length h ≤ length h' ∧
  ∀ x o, h !! x = Some o → ∃ o', h' !! x = Some o' ∧ f o' = f o.

(** The child occurs at one position only of the [children_list] of its
    mother. *)
Definition listed_once (h : store) (self : ref) : Prop :=
  ∀ mo lm, get_mother h self = Some mo → get_children h mo = Some lm →
    ∀ i j, lm !! i = Some self → lm !! j = Some self → i = j.

(** * Lemmas *)

(** ** The parent graph *)

Section Graph.
Variable h : store.

Lemma parent_cases c p :
  parent h c p ↔ get_father h c = Some p ∨ get_mother h c = Some p.
Proof. reflexivity. Qed.

Lemma parent_no_parents c :
  get_father h c = None → get_mother h c = None → ∀ p, ¬ parent h c p.
Proof. intros Hf Hm p [H|H]; congruence. Qed.

(** Every parent is recorded in some entry of the store. *)
Lemma parent_in_store c p :
  parent h c p → p ∈ omap father h ++ omap mother h.
Proof.
  unfold parent, get_father, get_mother. intros [H|H];
    destruct (h !! c) as [o|] eqn:Ho; simplify_eq/=;
    apply elem_of_app; [left|right];
    apply list_elem_of_omap; exists o; split; auto;
    apply list_elem_of_lookup; eauto.
Qed.

Lemma ancestor_last c a : ancestor h c a → ∃ z, parent h z a.
Proof. induction 1; eauto. Qed.

Lemma ancestors_finite c : pred_finite (ancestor h c).
Proof.
  exists (omap father h ++ omap mother h). intros a Ha.
  destruct (ancestor_last _ _ Ha) as [z Hz]. eauto using parent_in_store.
Qed.

(** A finite acyclic parent graph has no infinite ascending chain. *)
Lemma acyclic_sn : acyclic h → ∀ c, sn (parent h) c.
Proof.
  intros Hac c. apply tc_finite_sn; [exact Hac | apply ancestors_finite].
Qed.

Lemma ancestor_unfold c a :
  ancestor h c a ↔ ∃ p, parent h c p ∧ (a = p ∨ ancestor h p a).
Proof.
  split.
  - intros H. inversion H; subst; eauto.
  - intros (p & Hp & [->|Hpa]); [by apply tc_once | by eapply tc_l].
Qed.

Lemma ancestor_rtc c a :
  ancestor h c a ↔ ∃ p, parent h c p ∧ rtc (parent h) p a.
Proof.
  rewrite ancestor_unfold. split; intros (p & Hp & H); exists p; split; auto.
  - destruct H as [->|H]; [done | by apply tc_rtc].
  - apply rtc_tc in H. destruct H; auto.
Qed.

Lemma ancestor_step c p a : parent h c p → ancestor h p a → ancestor h c a.
Proof. intros. by eapply tc_l. Qed.
End Graph.

(** ** [get_ascendants] computes the ancestors *)

Section Ascendants.
Variable h : store.

Lemma ancestor_split c a :
  ancestor h c a ↔
    (∃ f, get_father h c = Some f ∧ (a = f ∨ ancestor h f a)) ∨
    (∃ m, get_mother h c = Some m ∧ (a = m ∨ ancestor h m a)).
Proof. rewrite ancestor_unfold. unfold parent. naive_solver. Qed.

(** The loop adds exactly the ancestors of the person it starts from: the
    persons it walks to afterwards contribute nothing new. *)
Lemma ascend_loop_ok cur :
  sn (parent h) cur →
  ∃ k0, ∀ rec, (∀ y, ancestor h cur y → right_at h rec y) →
    ∀ k, k0 ≤ k → ∀ acc, ∃ A,
      ascend_loop rec k h cur acc = Some A ∧
      ∀ x, x ∈ A ↔ x ∈ acc ∨ ancestor h cur x.
Proof.
  induction 1 as [cur _ IH]. unfold flip in IH.
  destruct (get_father h cur) as [f|] eqn:Hf;
    destruct (get_mother h cur) as [m|] eqn:Hm.
  - destruct (IH f) as [k0 Hk0]; [by left|].
    exists (S k0). intros rec Hrec [|k] Hk acc; [lia|]. simpl.
    rewrite Hf, Hm.
    destruct (Hrec f) as (Af & -> & HAf); [apply tc_once; by left|].
    destruct (Hrec m) as (Am & -> & HAm); [apply tc_once; by right|].
    simpl.
    destruct (Hk0 rec) with (k := k) (acc := acc ∪ {[f]} ∪ Af ∪ {[m]} ∪ Am)
      as (A & -> & HA); [|lia|].
    { intros y Hy. apply Hrec. eapply ancestor_step; [by left | done]. }
    exists A. split; [done|]. intros x. rewrite HA.
    rewrite (ancestor_split cur x), Hf, Hm.
    specialize (HAf x). specialize (HAm x). set_solver.
  - destruct (IH f) as [k0 Hk0]; [by left|].
    exists (S k0). intros rec Hrec [|k] Hk acc; [lia|]. simpl.
    rewrite Hf, Hm.
    destruct (Hrec f) as (Af & -> & HAf); [apply tc_once; by left|].
    simpl.
    destruct (Hk0 rec) with (k := k) (acc := acc ∪ {[f]} ∪ Af)
      as (A & -> & HA); [|lia|].
    { intros y Hy. apply Hrec. eapply ancestor_step; [by left | done]. }
    exists A. split; [done|]. intros x. rewrite HA.
    rewrite (ancestor_split cur x), Hf, Hm.
    specialize (HAf x). set_solver.
  - destruct (IH m) as [k0 Hk0]; [by right|].
    exists (S k0). intros rec Hrec [|k] Hk acc; [lia|]. simpl.
    rewrite Hf, Hm.
    destruct (Hrec m) as (Am & -> & HAm); [apply tc_once; by right|].
    simpl.
    destruct (Hk0 rec) with (k := k) (acc := acc ∪ {[m]} ∪ Am)
      as (A & -> & HA); [|lia|].
    { intros y Hy. apply Hrec. eapply ancestor_step; [by right | done]. }
    exists A. split; [done|]. intros x. rewrite HA.
    rewrite (ancestor_split cur x), Hf, Hm.
    specialize (HAm x). set_solver.
  - exists 1. intros rec _ [|k] Hk acc; [lia|]. simpl. rewrite Hf, Hm. simpl.
    exists acc. split; [done|]. intros x.
    rewrite (ancestor_split cur x), Hf, Hm. naive_solver.
Qed.

(** On an acyclic store some budget serves a person and all of its
    ancestors at once. *)
Lemma get_ascendants_upward :
  acyclic h → ∀ p, ∃ n, ∀ y, rtc (parent h) p y →
    ∀ fuel, n ≤ fuel → right_at h (get_ascendants fuel h) y.
Proof.
  intros Hac p. induction (acyclic_sn h Hac p) as [p Hsn IH].
  unfold flip in *.
  assert (∃ n, ∀ q, parent h p q → ∀ y, rtc (parent h) q y →
            ∀ fuel, n ≤ fuel → right_at h (get_ascendants fuel h) y)
    as [n1 Hn1].
  { assert (∀ o : option ref, (∀ q, o = Some q → parent h p q) →
      ∃ n, ∀ q, o = Some q → ∀ y, rtc (parent h) q y →
        ∀ fuel, n ≤ fuel → right_at h (get_ascendants fuel h) y) as Hopt.
    { intros [q|] Hq.
      - destruct (IH q) as [n Hn]; [by apply Hq|].
        exists n. by intros ? [= <-].
      - exists 0. by intros. }
    destruct (Hopt (get_father h p)) as [nf Hnf]; [by left|].
    destruct (Hopt (get_mother h p)) as [nm Hnm]; [by right|].
    exists (nf `max` nm). intros q [Hq|Hq] y Hy fuel Hfuel.
    - eapply Hnf; eauto; lia.
    - eapply Hnm; eauto; lia. }
  destruct (ascend_loop_ok p) as [k0 Hk0]; [by constructor|].
  exists (S (n1 `max` k0)). intros y Hy [|fuel] Hfuel; [lia|].
  inversion Hy as [|? q ? Hpq Hqy]; subst.
  - simpl.
    destruct (Hk0 (get_ascendants fuel h)) with (k := fuel) (acc := (∅ : refset))
      as (A & HA & HAx); [|lia|].
    + intros z (q & Hq & Hz)%ancestor_rtc. eapply Hn1; eauto. lia.
    + exists A. split; [done|]. intros x. rewrite HAx. set_solver.
  - eapply Hn1; eauto. lia.
Qed.
End Ascendants.

(** ** A larger budget changes no result *)

Section Budget.
Variable h : store.

Lemma ascend_loop_mono rec rec' k k' cur acc A :
  (∀ y B, rec y = Some B → rec' y = Some B) → k ≤ k' →
  ascend_loop rec k h cur acc = Some A →
  ascend_loop rec' k' h cur acc = Some A.
Proof.
  intros Hrec. revert k' cur acc.
  induction k as [|k IH]; intros [|k'] cur acc Hle; simpl; try done; try lia.
  destruct (get_father h cur) as [f|], (get_mother h cur) as [m|]; simpl.
  - destruct (rec f) as [Af|] eqn:Hf; [|done]. rewrite (Hrec _ _ Hf). simpl.
    destruct (rec m) as [Am|] eqn:Hm; [|done]. rewrite (Hrec _ _ Hm). simpl.
    apply IH. lia.
  - destruct (rec f) as [Af|] eqn:Hf; [|done]. rewrite (Hrec _ _ Hf). simpl.
    apply IH. lia.
  - destruct (rec m) as [Am|] eqn:Hm; [|done]. rewrite (Hrec _ _ Hm). simpl.
    apply IH. lia.
  - done.
Qed.

Lemma get_ascendants_mono n m p A :
  n ≤ m → get_ascendants n h p = Some A → get_ascendants m h p = Some A.
Proof.
  revert m p A. induction n as [|n IH]; intros [|m] p A Hle; simpl;
    try done; try lia.
  apply ascend_loop_mono; [|lia]. intros y B. apply IH. lia.
Qed.

Lemma grade_loop_mono n m C g r :
  n ≤ m → grade_loop n h C g = Some r → grade_loop m h C g = Some r.
Proof.
  revert m C g. induction n as [|n IH]; intros [|m] C g Hle; simpl;
    try done; try lia.
  case_decide; [done|]. apply IH. lia.
Qed.

Lemma cousin_grade_mono n m a b r :
  n ≤ m → cousin_grade n h a b = Some r → cousin_grade m h a b = Some r.
Proof.
  unfold cousin_grade. intros Hle H.
  destruct (get_ascendants n h a) as [A|] eqn:HA; [|done].
  destruct (get_ascendants n h b) as [B|] eqn:HB; [|done].
  rewrite (get_ascendants_mono _ _ _ _ Hle HA),
    (get_ascendants_mono _ _ _ _ Hle HB). simpl in *.
  case_decide; [done|]. by eapply grade_loop_mono.
Qed.
End Budget.

(** A result that is returned on large budgets is the only result. *)
Lemma returns_unique {A} (f : nat → option A) v w n :
  (∀ n m r, n ≤ m → f n = Some r → f m = Some r) →
  returns f v → f n = Some w → w = v.
Proof.
  intros Hmono [n0 Hn0] Hn.
  pose proof (Hn0 (n `max` n0) ltac:(lia)) as H1.
  pose proof (Hmono n (n `max` n0) w ltac:(lia) Hn) as H2. congruence.
Qed.

Lemma returns_both {A B} (f : nat → option A) (g : nat → option B) v w :
  returns f v → returns g w →
  ∃ n, ∀ fuel, n ≤ fuel → f fuel = Some v ∧ g fuel = Some w.
Proof.
  intros [n1 H1] [n2 H2]. exists (n1 `max` n2). intros fuel Hf.
  split; [apply H1 | apply H2]; lia.
Qed.

(** ** The climb over the common ancestors *)

Section Climb.
Variable h : store.

Lemma elem_of_add_parents y B x :
  x ∈ add_parents h y B ↔ x ∈ B ∨ parent h y x.
Proof.
  unfold add_parents, parent.
  destruct (get_father h y), (get_mother h y); set_solver.
Qed.

Lemma elem_of_parents_of C x :
  x ∈ parents_of h C ↔ ∃ y, y ∈ C ∧ parent h y x.
Proof.
  unfold parents_of. revert x.
  apply (set_fold_ind_L
           (λ B X, ∀ x, x ∈ B ↔ ∃ y, y ∈ X ∧ parent h y x)).
  - set_solver.
  - intros y X B _ IH x. rewrite elem_of_add_parents, IH. set_solver.
Qed.

Lemma parents_of_empty : parents_of h ∅ = ∅.
Proof. apply set_fold_empty. Qed.

Lemma generation_S k C :
  generation h (S k) C = generation h k (parents_of h C).
Proof. unfold generation. by rewrite Nat.iter_succ_r. Qed.

Lemma elem_of_generation k C x :
  x ∈ generation h k C ↔ ∃ y, y ∈ C ∧ nsteps (parent h) k y x.
Proof.
  revert C x. induction k as [|k IH]; intros C x.
  - simpl. split; [intros; exists x; split; [done | constructor]|].
    intros (y & Hy & Hs). by inversion Hs; subst.
  - rewrite generation_S, IH. split.
    + intros (y & (z & Hz & Hzy)%elem_of_parents_of & Hs).
      exists z. split; [done|]. by econstructor.
    + intros (y & Hy & Hs). inversion Hs as [|? ? z ? Hyz Hzx]; subst.
      exists z. split; [|done]. apply elem_of_parents_of. eauto.
Qed.

(** The ascending chains that start at [c] have bounded length. *)
Lemma sn_height c :
  sn (parent h) c → ∃ N, ∀ k x, nsteps (parent h) k c x → k ≤ N.
Proof.
  induction 1 as [c _ IH]. unfold flip in IH.
  assert (∀ o : option ref, (∀ q, o = Some q → parent h c q) →
    ∃ N, ∀ q, o = Some q → ∀ k x, nsteps (parent h) k q x → k ≤ N)
    as Hopt.
  { intros [q|] Hq.
    - destruct (IH q) as [N HN]; [by apply Hq|].
      exists N. by intros ? [= <-].
    - exists 0. by intros. }
  destruct (Hopt (get_father h c)) as [nf Hnf]; [by left|].
  destruct (Hopt (get_mother h c)) as [nm Hnm]; [by right|].
  exists (S (nf `max` nm)). intros k x Hs.
  inversion Hs as [|k' ? q ? Hcq Hqx]; subst; [lia|].
  destruct Hcq as [Hq|Hq].
  - specialize (Hnf _ Hq _ _ Hqx). lia.
  - specialize (Hnm _ Hq _ _ Hqx). lia.
Qed.

Lemma set_height (C : refset) :
  acyclic h → ∃ N, ∀ y, y ∈ C → ∀ k x, nsteps (parent h) k y x → k ≤ N.
Proof.
  intros Hac. induction C as [|c C _ [N HN]] using set_ind_L.
  - exists 0. set_solver.
  - destruct (sn_height c (acyclic_sn h Hac c)) as [Nc HNc].
    exists (N `max` Nc). intros y [->%elem_of_singleton|Hy]%elem_of_union k x Hs.
    + specialize (HNc _ _ Hs). lia.
    + specialize (HN _ Hy _ _ Hs). lia.
Qed.

(** On an acyclic store the generations above any set run out. *)
Lemma generation_vanishes C : acyclic h → ∃ N, generation h N C = ∅.
Proof.
  intros Hac. destruct (set_height C Hac) as [N HN]. exists (S N).
  apply set_eq. intros x. rewrite elem_of_generation. split; [|set_solver].
  intros (y & Hy & Hs). specialize (HN _ Hy _ _ Hs). lia.
Qed.

(** The loop stops at the first empty generation and has then added its
    number to the grade. *)
Lemma grade_loop_returns N :
  ∀ C g, generation h N C = ∅ →
    ∃ k, k ≤ N ∧ first_empty h C k ∧
      returns_from (λ fuel, grade_loop fuel h C g) (S N) (g + Z.of_nat k)%Z.
Proof.
  induction N as [|N IH]; intros C g HN.
  - exists 0. split; [done|]. split; [split; [done | lia]|].
    intros [|fuel] Hf; [lia|]. simpl in *. rewrite decide_True by done.
    f_equal. lia.
  - destruct (decide (C = ∅)) as [->|Hne].
    + exists 0. split; [lia|]. split; [split; [done | lia]|].
      intros [|fuel] Hf; [lia|]. simpl. rewrite decide_True by done.
      f_equal. lia.
    + rewrite generation_S in HN.
      destruct (IH (parents_of h C) (g + 1)%Z HN) as (k & Hk & [Hk0 Hkj] & Hr).
      exists (S k). split; [lia|]. split; [split|].
      * by rewrite generation_S.
      * intros [|j] Hj; [done|]. rewrite generation_S. apply Hkj. lia.
      * intros [|fuel] Hf; [lia|]. simpl. rewrite decide_False by done.
        rewrite Hr by lia. f_equal. lia.
Qed.

Lemma first_empty_pos C k : C ≠ ∅ → first_empty h C k → 1 ≤ k.
Proof. intros Hne [H0 _]. destruct k; [done | lia]. Qed.

Lemma first_empty_unique C k k' : first_empty h C k → first_empty h C k' → k = k'.
Proof.
  intros [H1 H2] [H1' H2'].
  destruct (Nat.lt_trichotomy k k') as [Hlt|[->|Hlt]]; [|done|].
  - by destruct (H2' _ Hlt).
  - by destruct (H2 _ Hlt).
Qed.
End Climb.

(** ** What [cousin_grade] returns *)

Lemma ancestors_are_unique h p A B :
  ancestors_are h p A → ancestors_are h p B → A = B.
Proof.
  intros HA HB. apply set_eq. intros x.
  etrans; [apply HA | symmetry; apply HB].
Qed.

Lemma get_ascendants_returns h p :
  acyclic h →
  ∃ A, ancestors_are h p A ∧ returns (λ fuel, get_ascendants fuel h p) A.
Proof.
  intros Hac. destruct (get_ascendants_upward h Hac p) as [n Hn].
  destruct (Hn p (rtc_refl _ _) n (Nat.le_refl _)) as (A & _ & HA).
  exists A. split; [done|]. exists n. intros fuel Hfuel.
  destruct (Hn p (rtc_refl _ _) fuel Hfuel) as (A' & -> & HA').
  f_equal. by eapply ancestors_are_unique.
Qed.

(** The two outcomes of [cousin_grade] on an acyclic store. *)
Lemma cousin_grade_returns h a b :
  acyclic h →
  ∃ A B, ancestors_are h a A ∧ ancestors_are h b B ∧
    ((A ∩ B = ∅ ∧ returns (λ fuel, cousin_grade fuel h a b) (-1)%Z) ∨
     (A ∩ B ≠ ∅ ∧ ∃ k, 1 ≤ k ∧ first_empty h (A ∩ B) k ∧
        returns (λ fuel, grade_loop fuel h (A ∩ B) 0%Z) (Z.of_nat k) ∧
        returns (λ fuel, cousin_grade fuel h a b) (Z.of_nat k))).
Proof.
  intros Hac.
  destruct (get_ascendants_returns h a Hac) as (A & HA & [na Hna]).
  destruct (get_ascendants_returns h b Hac) as (B & HB & [nb Hnb]).
  exists A, B. split; [done|]. split; [done|].
  destruct (decide (A ∩ B = ∅)) as [He|Hne].
  - left. split; [done|]. exists (na `max` nb). intros fuel Hfuel.
    unfold cousin_grade. rewrite Hna, Hnb by lia. simpl.
    rewrite decide_True; [done|]. rewrite He. apply size_empty.
  - right. split; [done|].
    destruct (generation_vanishes h (A ∩ B) Hac) as [N HN].
    destruct (grade_loop_returns h N (A ∩ B) 0%Z HN) as (k & _ & Hk & Hr).
    exists k. split; [by eapply first_empty_pos|]. split; [done|].
    split; [exists (S N); intros fuel Hfuel; rewrite Hr by lia; f_equal|].
    exists ((na `max` nb) `max` S N). intros fuel Hfuel.
    unfold cousin_grade. rewrite Hna, Hnb by lia. simpl.
    rewrite decide_False.
    + rewrite Hr by lia. f_equal.
    + intros Hs. apply Hne. by apply size_empty_inv, leibniz_equiv in Hs.
Qed.

Lemma common_ancestor_iff h a b A B :
  ancestors_are h a A → ancestors_are h b B →
  A ∩ B ≠ ∅ ↔ ∃ x, ancestor h a x ∧ ancestor h b x.
Proof.
  intros HA HB. split.
  - intros (x & [Hxa Hxb]%elem_of_intersection)%set_choose_L. exists x.
    split; [by apply HA | by apply HB].
  - intros (x & Hxa & Hxb) He. apply HA in Hxa. apply HB in Hxb. set_solver.
Qed.

(** Whatever the budget, the loop never takes the grade below its start,
    and from a non-empty frontier it adds at least one. *)
Lemma grade_loop_lower fuel h C g r :
  grade_loop fuel h C g = Some r →
  (g ≤ r)%Z ∧ (C ≠ ∅ → (g + 1 ≤ r)%Z).
Proof.
  revert C g. induction fuel as [|fuel IH]; intros C g; simpl; [done|].
  case_decide.
  - intros [= <-]. split; [lia | done].
  - intros Hr. apply IH in Hr as [Hr _]. lia.
Qed.

Lemma cousin_grade_range fuel h a b r :
  cousin_grade fuel h a b = Some r → r = (-1)%Z ∨ (1 ≤ r)%Z.
Proof.
  unfold cousin_grade.
  destruct (get_ascendants fuel h a) as [A|]; [|done].
  destruct (get_ascendants fuel h b) as [B|]; [|done]. simpl.
  case_decide as Hs; [intros [= <-]; by left|].
  intros [_ Hr]%grade_loop_lower. right.
  assert (A ∩ B ≠ ∅) as Hne.
  { intros He. apply Hs. rewrite He. apply size_empty. }
  specialize (Hr Hne). lia.
Qed.

Lemma spec_parents_parents_of h C : spec_parents h C = parents_of h C.
Proof.
  apply set_eq. intros x. rewrite elem_of_parents_of. unfold spec_parents, parent.
  rewrite elem_of_union, !elem_of_list_to_set, !list_elem_of_omap.
  setoid_rewrite elem_of_elements. naive_solver.
Qed.

(** From a non-empty set the loop of the code and the loop of the
    specification agree, the code needing one more test of its condition. *)
Lemma grade_loop_spec_climb fuel h C g :
  C ≠ ∅ → grade_loop (S fuel) h C g = spec_climb fuel h C g.
Proof.
  revert C g. induction fuel as [|fuel IH]; intros C g Hne.
  - simpl. by rewrite decide_False.
  - change (grade_loop (S (S fuel)) h C g) with
      (if decide (C = ∅) then Some g
       else grade_loop (S fuel) h (parents_of h C) (g + 1)%Z).
    rewrite decide_False by done. simpl spec_climb.
    rewrite spec_parents_parents_of.
    case_decide as He.
    + rewrite He. simpl. by rewrite decide_True.
    + by apply IH.
Qed.

(** ** The script runs *)

(** The script raises nothing and creates fourteen objects. *)
Example script_runs : ∃ h, script [] = Return (0, 1, 4, 8) h.
Proof. eexists. vm_compute. reflexivity. Qed.

(** Its last line prints the grade of Ion and Elena. *)
Example script_prints_grade : cousin_grade 10 script_store 0 1 = Some 1%Z.
Proof. vm_compute. reflexivity. Qed.

(** ** Computations that may raise *)

Lemma bind_Return_inv {A B} (m : M A) (k : A → M B) h v h' :
  bind m k h = Return v h' →
  ∃ a h1, m h = Return a h1 ∧ k a h1 = Return v h'.
Proof. unfold bind. destruct (m h) as [a h1|e h1]; [eauto | done]. Qed.

Lemma getattr_Return_inv {A} (field : Person → option A) r h v h' :
  getattr field r h = Return v h' →
  h' = h ∧ ∃ o, h !! r = Some o ∧ field o = Some v.
Proof.
  unfold getattr. destruct (h !! r) as [o|] eqn:Ho; simpl; [|done].
  destruct (field o) eqn:Hf; [|done]. intros [= <- <-]. eauto.
Qed.

Lemma setattr_Return_inv upd r h u h' :
  setattr upd r h = Return u h' →
  ∃ o, h !! r = Some o ∧ h' = <[r := upd o]> h.
Proof.
  unfold setattr. destruct (h !! r) as [o|]; [|done]. intros [= <-]. eauto.
Qed.

Lemma method_of_Return_inv c r h u h' :
  method_of c r h = Return u h' →
  h' = h ∧ ∃ o, h !! r = Some o ∧ cls o = c.
Proof.
  unfold method_of. intros (k & h1 & Hk & H)%bind_Return_inv.
  apply getattr_Return_inv in Hk as (-> & o & Ho & [= <-]).
  case_decide; [|done]. injection H as <-. eauto.
Qed.

Lemma new_Return_inv o h r h' :
  new o h = Return r h' → r = length h ∧ h' = h ++ [o].
Proof. by intros [= <- <-]. Qed.

Lemma deref_Return_inv x h r h' : deref x h = Return r h' → h' = h ∧ x = Some r.
Proof. destruct x; [|done]. by intros [= <- <-]. Qed.

(** ** Methods that leave the parent links alone *)

Lemma same_parents_refl h : same_parents h h.
Proof. by intros x. Qed.

Lemma same_parents_trans h1 h2 h3 :
  same_parents h1 h2 → same_parents h2 h3 → same_parents h1 h3.
Proof.
  intros H12 H23 x. destruct (H12 x), (H23 x). split; congruence.
Qed.

Lemma same_parents_parent h h' c p :
  same_parents h h' → parent h' c p ↔ parent h c p.
Proof. intros H. unfold parent. destruct (H c) as [-> ->]. done. Qed.

Lemma keeps_ret {A} (v : A) : keeps_parents (ret v).
Proof. intros h. apply same_parents_refl. Qed.

Lemma keeps_raise {A} e : keeps_parents (raise (A := A) e).
Proof. intros h. apply same_parents_refl. Qed.

Lemma keeps_bind {A B} (m : M A) (k : A → M B) :
  keeps_parents m → (∀ a, keeps_parents (k a)) → keeps_parents (bind m k).
Proof.
  intros Hm Hk h. unfold bind. specialize (Hm h).
  destruct (m h) as [a h1|e h1]; simpl in *; [|done].
  eapply same_parents_trans; [done | apply Hk].
Qed.

Lemma keeps_getattr {A} (field : Person → option A) r :
  keeps_parents (getattr field r).
Proof.
  intros h. unfold getattr. destruct (h !! r ≫= field); apply same_parents_refl.
Qed.

Lemma keeps_setattr upd r :
  (∀ o, father (upd o) = father o ∧ mother (upd o) = mother o) →
  keeps_parents (setattr upd r).
Proof.
  intros Hupd h. unfold setattr.
  destruct (h !! r) as [o|] eqn:Ho; simpl; [|apply same_parents_refl].
  intros x. unfold get_father, get_mother.
  destruct (decide (x = r)) as [->|Hne].
  - rewrite list_lookup_insert_eq by eauto using lookup_lt_Some.
    rewrite Ho. simpl. destruct (Hupd o) as [-> ->]. done.
  - by rewrite list_lookup_insert_ne.
Qed.

Lemma keeps_new o :
  father o = None → mother o = None → keeps_parents (new o).
Proof.
  intros Hf Hm h x. simpl. unfold get_father, get_mother.
  destruct (decide (x < length h)) as [Hlt|Hge].
  - by rewrite lookup_app_l.
  - rewrite (lookup_ge_None_2 h x) by lia. simpl.
    destruct (decide (x = length h)) as [->|Hne].
    + rewrite list_lookup_middle by done. simpl. by rewrite Hf, Hm.
    + rewrite lookup_ge_None_2; [done|]. rewrite length_app. simpl. lia.
Qed.

Lemma keeps_deref_mother self :
  keeps_parents (λ h, deref (get_mother h self) h).
Proof. intros h. destruct (get_mother h self); apply same_parents_refl. Qed.

Lemma keeps_deref_father self :
  keeps_parents (λ h, deref (get_father h self) h).
Proof. intros h. destruct (get_father h self); apply same_parents_refl. Qed.

#[local] Hint Resolve keeps_ret keeps_raise keeps_getattr keeps_new
  keeps_deref_mother keeps_deref_father : keeps.

(** One step of a proof that a method keeps the parent links. *)
Ltac keeps_step :=
  first
    [ apply keeps_bind; [|intros ?]
    | apply keeps_setattr; intros ?; split; reflexivity
    | solve [eauto with keeps]
    | case_decide
    | case_match ].

Lemma keeps_method_of c r : keeps_parents (method_of c r).
Proof. unfold method_of. repeat keeps_step. Qed.

Lemma keeps_children_append r c : keeps_parents (children_append r c).
Proof. unfold children_append, get_children_list. repeat keeps_step. Qed.

Lemma keeps_children_index r c : keeps_parents (children_index r c).
Proof. unfold children_index, get_children_list. repeat keeps_step. Qed.

Lemma keeps_children_setitem r i c : keeps_parents (children_setitem r i c).
Proof. unfold children_setitem, get_children_list. repeat keeps_step. Qed.

#[local] Hint Resolve keeps_method_of keeps_children_append
  keeps_children_index keeps_children_setitem : keeps.

(** [marriage], [divorce] and [become_adult] never touch a parent link. *)
Lemma keeps_marriage a b : keeps_parents (marriage a b).
Proof. unfold marriage, get_married_to, get_sex. repeat keeps_step. Qed.

Lemma keeps_divorce a b : keeps_parents (divorce a b).
Proof. unfold divorce, get_married_to. repeat keeps_step. Qed.

Lemma keeps_become_adult self jb : keeps_parents (become_adult self jb).
Proof. unfold become_adult, get_name, get_sex. repeat keeps_step. Qed.

(** ** [have_child_with] and [become_adult] *)

Lemma children_append_Return_inv r c h u h' :
  children_append r c h = Return u h' →
  ∃ o l, h !! r = Some o ∧ children_list o = Some l ∧
    h' = <[r := with_children_list o (l ++ [c])]> h.
Proof.
  unfold children_append, get_children_list.
  intros (l & h1 & Hl & Hs)%bind_Return_inv.
  apply getattr_Return_inv in Hl as (-> & o & Ho & Hl).
  apply setattr_Return_inv in Hs as (o' & Ho' & ->).
  exists o, l. by simplify_eq.
Qed.

Lemma have_child_with_Return h p q nm sx sch c h' :
  have_child_with p q nm sx sch h = Return c h' →
  c = length h ∧ p < length h ∧ q < length h ∧ p ≠ q ∧
  h' !! c = Some (Child_init nm sx sch p q) ∧
  ∃ lp lq, get_children h p = Some lp ∧ get_children h q = Some lq ∧
    get_children h' p = Some (lp ++ [c]) ∧
    get_children h' q = Some (lq ++ [c]).
Proof.
  unfold have_child_with, get_sex.
  intros ([] & h1 & (-> & op & Hop & Hcls)%method_of_Return_inv & H)%bind_Return_inv.
  apply bind_Return_inv in H as (s1 & h1 & Hs1 & H).
  apply getattr_Return_inv in Hs1 as (-> & op' & Hop' & [= <-]).
  apply bind_Return_inv in H as (s2 & h1 & Hs2 & H).
  apply getattr_Return_inv in Hs2 as (-> & oq & Hoq & [= <-]).
  simplify_eq. case_decide as Hsex; [done|].
  apply bind_Return_inv in H as (c' & h1 & [-> ->]%new_Return_inv & H).
  apply bind_Return_inv in H as ([] & h2 & Hp & H).
  apply bind_Return_inv in H as ([] & h3 & Hq & [= <- <-]).
  pose proof (lookup_lt_Some _ _ _ Hop) as Hplt.
  pose proof (lookup_lt_Some _ _ _ Hoq) as Hqlt.
  assert (p ≠ q) as Hpq by (intros ->; by simplify_eq).
  apply children_append_Return_inv in Hp as (op1 & lp & Hop1 & Hlp & ->).
  rewrite lookup_app_l in Hop1 by done. simplify_eq.
  apply children_append_Return_inv in Hq as (oq1 & lq & Hoq1 & Hlq & ->).
  rewrite list_lookup_insert_ne, lookup_app_l in Hoq1 by done. simplify_eq.
  repeat split; try done.
  - rewrite !list_lookup_insert_ne by lia. by apply list_lookup_middle.
  - exists lp, lq. unfold get_children. rewrite Hop, Hoq. simpl.
    repeat split; try done.
    + rewrite list_lookup_insert_ne by done.
      rewrite list_lookup_insert_eq; [done|]. rewrite length_app. lia.
    + rewrite list_lookup_insert_eq; [done|].
      rewrite length_insert, length_app. lia.
Qed.

Lemma become_adult_Return h self jb adult h' :
  become_adult self jb h = Return adult h' →
  adult = length h ∧ self < length h ∧ get_school h' self = Some None.
Proof.
  unfold become_adult, get_name, get_sex.
  intros ([] & h1 & (-> & o & Ho & Hcls)%method_of_Return_inv & H)%bind_Return_inv.
  apply bind_Return_inv in H as (nm & h1 & (-> & _)%getattr_Return_inv & H).
  apply bind_Return_inv in H as (sx & h1 & (-> & _)%getattr_Return_inv & H).
  apply bind_Return_inv in H as (a & h1 & [-> ->]%new_Return_inv & H).
  do 8 (apply bind_Return_inv in H as (? & ? & _ & H)).
  apply bind_Return_inv in H as (? & h2 & Hs & [= <- <-]).
  apply setattr_Return_inv in Hs as (o' & Ho' & ->).
  split; [done|]. split; [by eapply lookup_lt_Some|].
  unfold get_school. rewrite list_lookup_insert_eq; [done|].
  by eapply lookup_lt_Some.
Qed.

Lemma children_index_Return_inv r c h i h' :
  children_index r c h = Return i h' →
  h' = h ∧ ∃ o l, h !! r = Some o ∧ children_list o = Some l ∧ l !! i = Some c.
Proof.
  unfold children_index, get_children_list.
  intros (l & h1 & (-> & o & Ho & Hl)%getattr_Return_inv & H)%bind_Return_inv.
  destruct (list_find (λ x, x = c) l) as [[j y]|] eqn:Hfind; [|done].
  injection H as <- <-. apply list_find_Some in Hfind as (Hj & -> & _).
  split; [done|]. eauto.
Qed.

Lemma children_setitem_Return_inv r i c h u h' :
  children_setitem r i c h = Return u h' →
  ∃ o l, h !! r = Some o ∧ children_list o = Some l ∧
    h' = <[r := with_children_list o (<[i := c]> l)]> h.
Proof.
  unfold children_setitem, get_children_list.
  intros (l & h1 & (-> & o & Ho & Hl)%getattr_Return_inv & H)%bind_Return_inv.
  case_decide; [|done].
  apply setattr_Return_inv in H as (o' & Ho' & ->). simplify_eq. eauto.
Qed.

(** The object that [become_adult] returns is the one [Adult.__init__]
    built from the name and the sex of the child: the later steps write to
    the two parents and to the child only. *)
Lemma become_adult_object h self jb adult h' :
  become_adult self jb h = Return adult h' →
  ∃ o, h !! self = Some o ∧ cls o = ChildClass ∧
    h' !! adult = Some (Adult_init (name o) (sex o) jb).
Proof.
  unfold become_adult, get_name, get_sex.
  intros ([] & h1 & (-> & o & Ho & Hcls)%method_of_Return_inv & H)%bind_Return_inv.
  apply bind_Return_inv in H as (nm & h1 & (-> & o1 & Ho1 & [= <-])%getattr_Return_inv & H).
  apply bind_Return_inv in H as (sx & h1 & (-> & o2 & Ho2 & [= <-])%getattr_Return_inv & H).
  simplify_eq. exists o. split; [done|]. split; [done|].
  apply bind_Return_inv in H as (a & h1 & [-> ->]%new_Return_inv & H).
  set (A := Adult_init (name o) (sex o) jb) in *.
  assert ((h ++ [A]) !! length h = Some A) as HA by by apply list_lookup_middle.
  pose proof (lookup_lt_Some _ _ _ Ho) as Hself.
  apply bind_Return_inv in H as (mo & h1 & [-> Hmo]%deref_Return_inv & H).
  apply bind_Return_inv in H as (im & h1 & Him & H).
  apply children_index_Return_inv in Him as (-> & omo & lm & Homo & Hlm & Him).
  assert (mo ≠ length h) as Hmo_ne.
  { intros ->. rewrite HA in Homo. injection Homo as <-. simpl in Hlm.
    injection Hlm as <-. done. }
  apply bind_Return_inv in H as (fa & h1 & [-> Hfa]%deref_Return_inv & H).
  apply bind_Return_inv in H as (ifa & h1 & Hifa & H).
  apply children_index_Return_inv in Hifa as (-> & ofa & lf & Hofa & Hlf & Hifa).
  assert (fa ≠ length h) as Hfa_ne.
  { intros ->. rewrite HA in Hofa. injection Hofa as <-. simpl in Hlf.
    injection Hlf as <-. done. }
  apply bind_Return_inv in H as (mo' & h1 & [-> Hmo']%deref_Return_inv & H).
  rewrite Hmo in Hmo'. injection Hmo' as <-.
  apply bind_Return_inv in H as ([] & h2 & Hset & H).
  pose proof (keeps_children_setitem mo im (length h) (h ++ [A])) as Hkeep.
  rewrite Hset in Hkeep. simpl in Hkeep.
  apply children_setitem_Return_inv in Hset as (omo' & lm' & _ & _ & ->).
  apply bind_Return_inv in H as (fa' & h1 & [-> Hfa']%deref_Return_inv & H).
  destruct (Hkeep self) as [Hkf _]. rewrite Hkf, Hfa in Hfa'.
  injection Hfa' as <-.
  apply bind_Return_inv in H as ([] & h3 & Hset & H).
  apply children_setitem_Return_inv in Hset as (ofa' & lf' & _ & _ & ->).
  apply bind_Return_inv in H as ([] & h4 & Hs & [= <- <-]).
  apply setattr_Return_inv in Hs as (o' & _ & ->).
  rewrite !list_lookup_insert_ne by lia. done.
Qed.

(** ** [marriage] and [divorce] *)

Lemma marriage_cases a b h :
  (∃ e, marriage a b h = Raise e h) ∨
  (a ≠ b ∧ ∃ oa ob, h !! a = Some oa ∧ h !! b = Some ob ∧
     marriage a b h =
       Return () (<[b := with_married_to ob (Some a)]>
                    (<[a := with_married_to oa (Some b)]> h))).
Proof.
  unfold marriage, method_of, get_married_to, get_sex, getattr, setattr,
    bind, ret, raise.
  destruct (h !! a) as [oa|] eqn:Ha; simpl; [|left; eauto].
  case_decide; [|left; eauto]. rewrite Ha. simpl.
  destruct (married_to oa) as [[sa|]|]; simpl; [left; eauto| |left; eauto].
  destruct (h !! b) as [ob|] eqn:Hb; simpl; [|left; eauto].
  destruct (married_to ob) as [[sb|]|]; simpl; [left; eauto| |left; eauto].
  rewrite Ha. simpl. rewrite Hb. simpl.
  case_decide as Hsex; [left; eauto|].
  assert (a ≠ b) as Hab by (intros ->; by simplify_eq).
  rewrite Ha, list_lookup_insert_ne, Hb by done.
  right. split; [done|]. eauto.
Qed.

Lemma no_self_marriage_insert h r o v :
  no_self_marriage h → v ≠ Some r →
  no_self_marriage (<[r := with_married_to o v]> h).
Proof.
  intros Hinv Hv x. specialize (Hinv x). unfold get_spouse in *.
  destruct (decide (x = r)) as [->|Hne].
  - destruct (decide (r < length h)).
    + rewrite list_lookup_insert_eq by done. simpl. congruence.
    + by rewrite list_insert_ge by lia.
  - by rewrite list_lookup_insert_ne.
Qed.

Lemma marriage_no_self a b h :
  no_self_marriage h → no_self_marriage (state_after (marriage a b h)).
Proof.
  intros Hinv.
  destruct (marriage_cases a b h) as [[e ->]|(Hab & oa & ob & _ & _ & ->)];
    [done|]. simpl.
  apply no_self_marriage_insert; [apply no_self_marriage_insert|];
    [done|congruence..].
Qed.

Lemma divorce_no_self a b h :
  no_self_marriage h → no_self_marriage (state_after (divorce a b h)).
Proof.
  intros Hinv.
  unfold divorce, method_of, get_married_to, getattr, setattr, bind, ret, raise.
  destruct (h !! a) as [oa|] eqn:Ha; simpl; [|done].
  case_decide; [|done]. rewrite Ha. simpl.
  destruct (married_to oa) as [[sa|]|]; simpl; [|done..].
  case_decide; [|done]. rewrite Ha.
  destruct (_ !! b) as [ob|]; simpl.
  - by repeat apply no_self_marriage_insert.
  - by apply no_self_marriage_insert.
Qed.

Lemma perform_all_no_self cs h :
  no_self_marriage h → no_self_marriage (perform_all cs h).
Proof.
  revert h. induction cs as [|c cs IH]; intros h Hinv; [done|].
  simpl. apply IH. destruct c; simpl.
  - by apply marriage_no_self.
  - by apply divorce_no_self.
Qed.

Lemma marriage_taken h a b :
  is_Adult h a → married h a ∨ married h b →
  marriage a b h =
    Raise (ValueError "Both adults must be divorced to get married") h.
Proof.
  intros (oa & Ha & Hcls & _ & [ma Hma] & _) Hm.
  unfold marriage, method_of, get_married_to, get_sex, getattr, setattr,
    bind, ret, raise.
  rewrite Ha. simpl. rewrite decide_True by done. rewrite Ha. simpl.
  rewrite Hma. destruct ma as [sa|]; [done|].
  destruct Hm as [[s Hs]|[s Hs]]; unfold get_spouse in Hs.
  - rewrite Ha in Hs. simpl in Hs. congruence.
  - rewrite Hs. simpl. done.
Qed.

(** A marriage that returns has linked the two adults to each other. *)
Lemma marriage_Return a b h u h' :
  marriage a b h = Return u h' →
  a ≠ b ∧ get_spouse h a = Some None ∧ get_spouse h b = Some None ∧
  get_spouse h' a = Some (Some b) ∧ get_spouse h' b = Some (Some a).
Proof.
  intros Hr.
  destruct (marriage_cases a b h) as [[e He]|(Hab & oa & ob & Ha & Hb & He)];
    [congruence|].
  rewrite He in Hr. injection Hr as Hh'. subst h'.
  pose proof (lookup_lt_Some _ _ _ Ha). pose proof (lookup_lt_Some _ _ _ Hb).
  split; [done|]. revert He.
  unfold marriage, method_of, get_married_to, get_sex, getattr, setattr,
    bind, ret, raise, get_spouse.
  rewrite Ha. simpl. case_decide; [|done]. rewrite Ha. simpl.
  destruct (married_to oa) as [[sa|]|]; simpl; [done| |done].
  rewrite Hb. simpl.
  destruct (married_to ob) as [[sb|]|]; simpl; [done| |done].
  intros _. repeat split; try done.
  - rewrite list_lookup_insert_ne by done.
    by rewrite list_lookup_insert_eq by done.
  - by rewrite list_lookup_insert_eq by (by rewrite length_insert).
Qed.

(** ** Assigning a parent link *)

Lemma set_father_read h r v :
  r < length h → get_father (set_father h r v) r = v.
Proof.
  intros Hr. destruct (lookup_lt_is_Some_2 h r Hr) as [o Ho].
  unfold set_father, get_father. rewrite Ho.
  by rewrite list_lookup_insert_eq.
Qed.

Lemma set_mother_read h r v :
  r < length h → get_mother (set_mother h r v) r = v.
Proof.
  intros Hr. destruct (lookup_lt_is_Some_2 h r Hr) as [o Ho].
  unfold set_mother, get_mother. rewrite Ho.
  by rewrite list_lookup_insert_eq.
Qed.

Lemma set_father_frame h r v x :
  (x ≠ r → get_father (set_father h r v) x = get_father h x) ∧
  get_mother (set_father h r v) x = get_mother h x.
Proof.
  unfold set_father, get_father, get_mother.
  destruct (h !! r) as [o|] eqn:Ho; [|done].
  destruct (decide (x = r)) as [->|Hne].
  - split; [done|].
    rewrite list_lookup_insert_eq by eauto using lookup_lt_Some.
    by rewrite Ho.
  - by rewrite list_lookup_insert_ne.
Qed.

Lemma set_mother_frame h r v x :
  get_father (set_mother h r v) x = get_father h x ∧
  (x ≠ r → get_mother (set_mother h r v) x = get_mother h x).
Proof.
  unfold set_mother, get_father, get_mother.
  destruct (h !! r) as [o|] eqn:Ho; [|done].
  destruct (decide (x = r)) as [->|Hne].
  - split; [|done].
    rewrite list_lookup_insert_eq by eauto using lookup_lt_Some.
    by rewrite Ho.
  - by rewrite list_lookup_insert_ne.
Qed.

(** A path that ends in [r] survives a change of the links of [r]. *)
Lemma rtc_parent_upto (h h' : store) r d :
  (∀ x p, x ≠ r → parent h x p → parent h' x p) →
  rtc (parent h) d r → rtc (parent h') d r.
Proof.
  intros Hframe. induction 1 as [|x y z Hxy _ IH]; [done|].
  destruct (decide (x = z)) as [->|Hne]; [done|].
  eapply rtc_l; [by apply Hframe | by apply IH].
Qed.

Lemma set_father_cycle h r d :
  r < length h → rtc (parent h) d r →
  ancestor (set_father h r (Some d)) r r.
Proof.
  intros Hr Hd. apply ancestor_rtc. exists d. split.
  - left. by apply set_father_read.
  - eapply rtc_parent_upto; [|done]. intros x p Hx.
    destruct (set_father_frame h r (Some d) x) as [Hf Hm].
    unfold parent. rewrite Hf, Hm by done. done.
Qed.

Lemma set_mother_cycle h r d :
  r < length h → rtc (parent h) d r →
  ancestor (set_mother h r (Some d)) r r.
Proof.
  intros Hr Hd. apply ancestor_rtc. exists d. split.
  - right. by apply set_mother_read.
  - eapply rtc_parent_upto; [|done]. intros x p Hx.
    destruct (set_mother_frame h r (Some d) x) as [Hf Hm].
    unfold parent. rewrite Hf, Hm by done. done.
Qed.

Lemma get_ascendants_S fuel h person :
  get_ascendants (S fuel) h person =
    ascend_loop (get_ascendants fuel h) fuel h person ∅.
Proof. reflexivity. Qed.

Lemma ascend_loop_S rec k h cur acc :
  ascend_loop rec (S k) h cur acc =
    (acc1 ← match get_father h cur with
            | Some f => up ← rec f; Some (acc ∪ {[f]} ∪ up)
            | None => Some acc
            end;
     acc2 ← match get_mother h cur with
            | Some m => up ← rec m; Some (acc1 ∪ {[m]} ∪ up)
            | None => Some acc1
            end;
     match get_father h cur, get_mother h cur with
     | None, None => Some acc2
     | Some f, _ => ascend_loop rec k h f acc2
     | None, Some m => ascend_loop rec k h m acc2
     end).
Proof. reflexivity. Qed.

(** A person from whom a cycle can be reached has no ascendants set: the
    recursion of [get_ascendants] exhausts every budget. *)
Lemma get_ascendants_cycle h y :
  ancestor h y y →
  ∀ fuel p, rtc (parent h) p y → get_ascendants fuel h p = None.
Proof.
  intros Hy. induction fuel as [|fuel IH]; intros p Hp; [done|].
  assert (∃ q, parent h p q ∧ rtc (parent h) q y) as (q & Hpq & Hq).
  { inversion Hp as [|? q ? Hpq Hq]; subst; [by apply ancestor_rtc | eauto]. }
  rewrite get_ascendants_S. destruct fuel as [|k]; [done|].
  rewrite ascend_loop_S. destruct Hpq as [Hf|Hm].
  - rewrite Hf. by rewrite (IH q Hq).
  - rewrite Hm. rewrite (IH q Hq).
    destruct (get_father h p) as [f|]; [|done].
    by destruct (get_ascendants (S k) h f).
Qed.

(** ** Acyclic stores by a rank *)

Lemma ranked_acyclic rk h : ranked rk h → acyclic h.
Proof.
  intros Hrk x Hx.
  assert (∀ a b, ancestor h a b → rk a < rk b) as Hlt.
  { induction 1 as [a b Hab|a b c Hab _ IH].
    - by apply Hrk.
    - specialize (Hrk _ _ Hab). lia. }
  specialize (Hlt _ _ Hx). lia.
Qed.

Lemma rank_check_ranked rk h : rank_check rk h = true → ranked rk h.
Proof.
  unfold rank_check. rewrite forallb_forall. intros Hall c p Hp.
  assert (c < length h) as Hc.
  { destruct Hp as [Hp|Hp]; unfold get_father, get_mother in Hp;
      destruct (h !! c) eqn:Ho; simplify_eq/=; by eapply lookup_lt_Some. }
  specialize (Hall c). rewrite in_seq in Hall.
  specialize (Hall ltac:(lia)). apply andb_true_iff in Hall as [Hf Hm].
  destruct Hp as [Hp|Hp]; rewrite Hp in *; simpl in *;
    by apply bool_decide_eq_true in Hf || apply bool_decide_eq_true in Hm.
Qed.

Lemma births_store_acyclic : acyclic births_store.
Proof.
  apply (ranked_acyclic script_rank), rank_check_ranked. by vm_compute.
Qed.

Lemma script_store_acyclic : acyclic script_store.
Proof.
  apply (ranked_acyclic script_rank), rank_check_ranked. by vm_compute.
Qed.

(** ** Full siblings *)

Lemma ascendants_no_parents h x fuel :
  get_father h x = None → get_mother h x = None → 2 ≤ fuel →
  get_ascendants fuel h x = Some ∅.
Proof.
  intros Hf Hm Hfuel. destruct fuel as [|[|k]]; try lia.
  by rewrite get_ascendants_S, ascend_loop_S, Hf, Hm.
Qed.

Lemma ascendants_two_parents h p f m fuel :
  get_father h p = Some f → get_mother h p = Some m →
  get_father h f = None → get_mother h f = None →
  get_father h m = None → get_mother h m = None →
  3 ≤ fuel → get_ascendants fuel h p = Some {[f; m]}.
Proof.
  intros Hf Hm Hff Hfm Hmf Hmm Hfuel. destruct fuel as [|[|[|k]]]; try lia.
  rewrite get_ascendants_S, ascend_loop_S, Hf, Hm.
  rewrite !ascendants_no_parents by (done || lia).
  cbn [mbind option_bind].
  rewrite ascend_loop_S, Hff, Hfm. simpl. f_equal. set_solver.
Qed.

Lemma siblings_grade h p1 p2 f m fuel :
  get_father h p1 = Some f → get_mother h p1 = Some m →
  get_father h p2 = Some f → get_mother h p2 = Some m →
  get_father h f = None → get_mother h f = None →
  get_father h m = None → get_mother h m = None →
  3 ≤ fuel → cousin_grade fuel h p1 p2 = Some 1%Z.
Proof.
  intros Hf1 Hm1 Hf2 Hm2 Hff Hfm Hmf Hmm Hfuel. unfold cousin_grade.
  rewrite (ascendants_two_parents h p1 f m), (ascendants_two_parents h p2 f m)
    by done. simpl.
  assert (({[f; m]} : refset) ∩ {[f; m]} ≠ ∅) as Hne by set_solver.
  rewrite decide_False.
  2:{ intros Hs. by apply size_empty_inv, leibniz_equiv in Hs. }
  destruct fuel as [|[|k]]; try lia. simpl.
  rewrite decide_False by done. rewrite decide_True; [done|].
  apply set_eq. intros x. rewrite elem_of_parents_of. split; [|set_solver].
  intros (y & Hy & [Hp|Hp]).
  - assert (y = f ∨ y = m) as [->| ->] by set_solver; congruence.
  - assert (y = f ∨ y = m) as [->| ->] by set_solver; congruence.
Qed.

Lemma cousin_grade_comm fuel h a b :
  cousin_grade fuel h a b = cousin_grade fuel h b a.
Proof.
  unfold cousin_grade.
  destruct (get_ascendants fuel h a) as [A|], (get_ascendants fuel h b) as [B|];
    simpl; try done.
  by rewrite (comm_L (∩) A B).
Qed.

Lemma no_ancestor_no_parents h p :
  get_father h p = None → get_mother h p = None → ∀ x, ¬ ancestor h p x.
Proof.
  intros Hf Hm x (q & [Hq|Hq] & _)%ancestor_unfold; congruence.
Qed.

Lemma no_self_check_sound h : no_self_check h = true → no_self_marriage h.
Proof.
  unfold no_self_check. rewrite forallb_forall. intros Hall r.
  destruct (decide (r < length h)) as [Hlt|Hge].
  - specialize (Hall r). rewrite in_seq in Hall.
    eapply bool_decide_eq_true_1, Hall. lia.
  - unfold get_spouse. by rewrite lookup_ge_None_2 by lia.
Qed.

Lemma script_store_no_self : no_self_marriage script_store.
Proof. apply no_self_check_sound. by vm_compute. Qed.

(** * The properties of the program *)

(** C1: for two persons of an acyclic store who have a common ancestor,
    [cousin_grade] returns the number of iterations of the loop "replace
    [common] by the set of all fathers and mothers of its members,
    increment the grade, stop when the replacement is empty", started on
    the intersection of the two ancestor sets; that number is the index of
    the first empty generation above the intersection. *)
Theorem cousin_grade_counts_climb h a b :
  acyclic h → (∃ x, ancestor h a x ∧ ancestor h b x) →
  ∃ A B k,
    ancestors_are h a A ∧ ancestors_are h b B ∧ A ∩ B ≠ ∅ ∧
    returns (λ fuel, cousin_grade fuel h a b) (Z.of_nat k) ∧
    returns (λ fuel, spec_climb fuel h (A ∩ B) 0%Z) (Z.of_nat k) ∧
    first_empty h (A ∩ B) k.
Proof.
  intros Hac Hcommon.
  destruct (cousin_grade_returns h a b Hac) as (A & B & HA & HB & Hcases).
  exists A, B.
  destruct Hcases as [[He _]|(Hne & k & _ & Hk & [n Hloop] & Hcg)].
  - by apply (common_ancestor_iff h a b A B HA HB) in Hcommon.
  - exists k. repeat split; try done.
    + apply HA. + apply HA. + apply HB. + apply HB.
    + exists n. intros fuel Hfuel. rewrite <- grade_loop_spec_climb by done.
      apply Hloop. lia.
    + apply Hk.
    + apply Hk.
Qed.

Lemma cousin_grade_counts_climb_witness :
  ∃ A B k,
    ancestors_are script_store 0 A ∧ ancestors_are script_store 1 B ∧
    A ∩ B ≠ ∅ ∧
    returns (λ fuel, cousin_grade fuel script_store 0 1) (Z.of_nat k) ∧
    returns (λ fuel, spec_climb fuel script_store (A ∩ B) 0%Z) (Z.of_nat k) ∧
    first_empty script_store (A ∩ B) k.
Proof.
  apply (cousin_grade_counts_climb script_store 0 1 script_store_acyclic).
  exists 13. split.
  - apply tc_l with 9; [left; reflexivity|]. apply tc_once. left. reflexivity.
  - apply tc_l with 12; [left; reflexivity|]. apply tc_once. left. reflexivity.
Defined.

(** C2, as amended: full siblings [p1] and [p2] with father [f] and mother
    [m] have both [f] and [m] among their common ancestors; when [f] and
    [m] have no recorded parents, [cousin_grade p1 p2] returns 1 (the loop
    runs once, and that iteration is counted). *)
Theorem siblings_grade_one h p1 p2 f m :
  get_father h p1 = Some f → get_mother h p1 = Some m →
  get_father h p2 = Some f → get_mother h p2 = Some m →
  (acyclic h → ∃ A1 A2,
     returns (λ fuel, get_ascendants fuel h p1) A1 ∧
     returns (λ fuel, get_ascendants fuel h p2) A2 ∧
     f ∈ A1 ∩ A2 ∧ m ∈ A1 ∩ A2) ∧
  (get_father h f = None → get_mother h f = None →
   get_father h m = None → get_mother h m = None →
   returns_from (λ fuel, cousin_grade fuel h p1 p2) 3 1%Z).
Proof.
  intros Hf1 Hm1 Hf2 Hm2. split.
  - intros Hac.
    destruct (get_ascendants_returns h p1 Hac) as (A1 & HA1 & Hr1).
    destruct (get_ascendants_returns h p2 Hac) as (A2 & HA2 & Hr2).
    exists A1, A2. repeat split; try done; apply elem_of_intersection; split;
      (apply HA1 || apply HA2); apply tc_once; by (left + right).
  - intros Hff Hfm Hmf Hmm fuel Hfuel. by eapply siblings_grade.
Qed.

Lemma siblings_grade_one_witness :
  (acyclic births_store → ∃ A1 A2,
     returns (λ fuel, get_ascendants fuel births_store 4) A1 ∧
     returns (λ fuel, get_ascendants fuel births_store 6) A2 ∧
     0 ∈ A1 ∩ A2 ∧ 1 ∈ A1 ∩ A2) ∧
  (get_father births_store 0 = None → get_mother births_store 0 = None →
   get_father births_store 1 = None → get_mother births_store 1 = None →
   returns_from (λ fuel, cousin_grade fuel births_store 4 6) 3 1%Z).
Proof.
  apply (siblings_grade_one births_store 4 6 0 1); reflexivity.
Defined.

(** C2, as stated, fails: [child1] (4) and [child3] (6) of the script are
    full siblings of Ion (0) and Elena (1), who have no recorded parents
    when the children are born, and their grade is 1, never 0. *)
Lemma siblings_grade_not_zero :
  get_father births_store 4 = Some 0 ∧ get_mother births_store 4 = Some 1 ∧
  get_father births_store 6 = Some 0 ∧ get_mother births_store 6 = Some 1 ∧
  get_father births_store 0 = None ∧ get_mother births_store 0 = None ∧
  get_father births_store 1 = None ∧ get_mother births_store 1 = None ∧
  cousin_grade 3 births_store 4 6 = Some 1%Z ∧
  ¬ ∃ fuel, cousin_grade fuel births_store 4 6 = Some 0%Z.
Proof.
  repeat split; try (vm_compute; reflexivity).
  intros [fuel Hz]. apply cousin_grade_range in Hz. lia.
Qed.

(** C3: on an acyclic store [cousin_grade a b] returns -1 exactly when [a]
    and [b] have no common ancestor, in particular when either has no
    ancestor at all, and a non-negative integer otherwise. *)
Theorem cousin_grade_sentinel h a b :
  acyclic h →
  ∃ g, returns (λ fuel, cousin_grade fuel h a b) g ∧
    (g = (-1)%Z ↔ ¬ ∃ x, ancestor h a x ∧ ancestor h b x) ∧
    ((∀ x, ¬ ancestor h a x) ∨ (∀ x, ¬ ancestor h b x) → g = (-1)%Z) ∧
    (g ≠ (-1)%Z → (0 ≤ g)%Z).
Proof.
  intros Hac.
  destruct (cousin_grade_returns h a b Hac) as (A & B & HA & HB & Hcases).
  pose proof (common_ancestor_iff h a b A B HA HB) as Hiff.
  destruct Hcases as [[He Hr]|(Hne & k & Hk & _ & _ & Hr)].
  - assert (¬ ∃ x, ancestor h a x ∧ ancestor h b x) as Hno.
    { intros Hx. by apply Hiff in Hx. }
    exists (-1)%Z. repeat split; try done.
  - exists (Z.of_nat k). split; [done|].
    assert (∃ x, ancestor h a x ∧ ancestor h b x) as Hx by by apply Hiff.
    repeat split.
    + lia.
    + intros Hno. by destruct Hno.
    + intros [Hno|Hno]; destruct Hx as (x & Hxa & Hxb); by edestruct Hno.
    + lia.
Qed.

Lemma cousin_grade_sentinel_witness :
  ∃ g, returns (λ fuel, cousin_grade fuel script_store 0 1) g ∧
    (g = (-1)%Z ↔ ¬ ∃ x, ancestor script_store 0 x ∧ ancestor script_store 1 x) ∧
    ((∀ x, ¬ ancestor script_store 0 x) ∨ (∀ x, ¬ ancestor script_store 1 x) →
     g = (-1)%Z) ∧
    (g ≠ (-1)%Z → (0 ≤ g)%Z).
Proof. apply (cousin_grade_sentinel script_store 0 1 script_store_acyclic). Defined.

(** C4: on an acyclic store [cousin_grade a b] and [cousin_grade b a]
    return the same grade; on every budget the two computations agree. *)
Theorem cousin_grade_symmetric h a b :
  acyclic h →
  (∀ fuel, cousin_grade fuel h a b = cousin_grade fuel h b a) ∧
  ∃ g, returns (λ fuel, cousin_grade fuel h a b) g ∧
       returns (λ fuel, cousin_grade fuel h b a) g.
Proof.
  intros Hac. split; [intros fuel; apply cousin_grade_comm|].
  destruct (cousin_grade_returns h a b Hac)
    as (A & B & _ & _ & [[_ Hr]|(_ & k & _ & _ & _ & Hr)]).
  - exists (-1)%Z. split; [done|]. destruct Hr as [n Hn]. exists n.
    intros fuel Hfuel. rewrite <- cousin_grade_comm. by apply Hn.
  - exists (Z.of_nat k). split; [done|]. destruct Hr as [n Hn]. exists n.
    intros fuel Hfuel. rewrite <- cousin_grade_comm. by apply Hn.
Qed.

Lemma cousin_grade_symmetric_witness :
  (∀ fuel, cousin_grade fuel script_store 0 1 = cousin_grade fuel script_store 1 0) ∧
  ∃ g, returns (λ fuel, cousin_grade fuel script_store 0 1) g ∧
       returns (λ fuel, cousin_grade fuel script_store 1 0) g.
Proof. apply (cousin_grade_symmetric script_store 0 1 script_store_acyclic). Defined.

(** C5: on an acyclic store [get_ascendants p] returns the set of exactly
    the nodes reached from [p] by one or more father or mother edges: it is
    empty when [p] has no recorded parents, it never contains [p], and each
    ancestor, however many paths lead to it, occurs in it once. *)
Theorem get_ascendants_exact h p :
  acyclic h →
  ∃ A, returns (λ fuel, get_ascendants fuel h p) A ∧
    ancestors_are h p A ∧
    (get_father h p = None → get_mother h p = None → A = ∅) ∧
    (p ∉ A) ∧
    NoDup (elements A) ∧ (∀ x, ancestor h p x → x ∈ elements A).
Proof.
  intros Hac. destruct (get_ascendants_returns h p Hac) as (A & HA & Hr).
  exists A. repeat split; try done.
  - apply HA. - apply HA.
  - intros Hf Hm. apply set_eq. intros x. split; [|set_solver].
    intros Hx%HA. by eapply no_ancestor_no_parents in Hx.
  - intros Hp%HA. by apply (Hac p).
  - apply NoDup_elements.
  - intros x Hx. apply elem_of_elements. by apply HA.
Qed.

Lemma get_ascendants_exact_witness :
  ∃ A, returns (λ fuel, get_ascendants fuel script_store 0) A ∧
    ancestors_are script_store 0 A ∧
    (get_father script_store 0 = None → get_mother script_store 0 = None →
     A = ∅) ∧
    (0 ∉ A) ∧
    NoDup (elements A) ∧ (∀ x, ancestor script_store 0 x → x ∈ elements A).
Proof. apply (get_ascendants_exact script_store 0 script_store_acyclic). Defined.

(** C6: on an acyclic store both [get_ascendants] and [cousin_grade]
    terminate with a result, and the grade is determined by the store and
    the two persons: no budget yields another one. *)
Theorem cousin_grade_total h :
  acyclic h →
  (∀ p, ∃ A, returns (λ fuel, get_ascendants fuel h p) A ∧
     ∀ fuel A', get_ascendants fuel h p = Some A' → A' = A) ∧
  (∀ a b, ∃ g, returns (λ fuel, cousin_grade fuel h a b) g ∧
     ∀ fuel g', cousin_grade fuel h a b = Some g' → g' = g).
Proof.
  intros Hac. split.
  - intros p. destruct (get_ascendants_returns h p Hac) as (A & _ & Hr).
    exists A. split; [done|]. intros fuel A' HA'.
    eapply (returns_unique (λ fuel, get_ascendants fuel h p)); [|done..].
    intros n m r. apply get_ascendants_mono.
  - intros a b.
    destruct (cousin_grade_returns h a b Hac)
      as (A & B & _ & _ & [[_ Hr]|(_ & k & _ & _ & _ & Hr)]).
    + exists (-1)%Z. split; [done|]. intros fuel g' Hg'.
      eapply (returns_unique (λ fuel, cousin_grade fuel h a b)); [|done..].
      intros n m r. apply cousin_grade_mono.
    + exists (Z.of_nat k). split; [done|]. intros fuel g' Hg'.
      eapply (returns_unique (λ fuel, cousin_grade fuel h a b)); [|done..].
      intros n m r. apply cousin_grade_mono.
Qed.

Lemma cousin_grade_total_witness :
  (∀ p, ∃ A, returns (λ fuel, get_ascendants fuel script_store p) A ∧
     ∀ fuel A', get_ascendants fuel script_store p = Some A' → A' = A) ∧
  (∀ a b, ∃ g, returns (λ fuel, cousin_grade fuel script_store a b) g ∧
     ∀ fuel g', cousin_grade fuel script_store a b = Some g' → g' = g).
Proof. apply (cousin_grade_total script_store script_store_acyclic). Defined.

(** C7, as amended: attaching a parent link never fails.  The assignment
    [r.father = d], and likewise [r.mother = d], stores the link as given
    on every existing [r], also when [d] is [r] itself or a descendant of
    [r]; [r] is then its own ancestor.  The code has no [CycleError] and
    makes no reachability check. *)
Theorem parent_link_unchecked h r d :
  r < length h → rtc (parent h) d r →
  (get_father (set_father h r (Some d)) r = Some d ∧
   ancestor (set_father h r (Some d)) r r) ∧
  (get_mother (set_mother h r (Some d)) r = Some d ∧
   ancestor (set_mother h r (Some d)) r r).
Proof.
  intros Hr Hd. repeat split.
  - by apply set_father_read.
  - by apply set_father_cycle.
  - by apply set_mother_read.
  - by apply set_mother_cycle.
Qed.

Lemma parent_link_unchecked_witness :
  (get_father (set_father script_store 13 (Some 0)) 13 = Some 0 ∧
   ancestor (set_father script_store 13 (Some 0)) 13 13) ∧
  (get_mother (set_mother script_store 13 (Some 0)) 13 = Some 0 ∧
   ancestor (set_mother script_store 13 (Some 0)) 13 13).
Proof.
  apply (parent_link_unchecked script_store 13 0).
  - vm_compute. lia.
  - apply rtc_l with 9; [left; reflexivity|].
    apply rtc_l with 13; [left; reflexivity|]. apply rtc_refl.
Defined.

(** C7, as stated, fails: in the family of the script Ion (0) descends
    from Ioan (13); making Ion the father of Ioan is accepted, changes the
    store, and leaves Ioan his own ancestor, after which [get_ascendants]
    no longer returns for him. *)
Lemma parent_link_cycle_accepted :
  acyclic script_store ∧ ancestor script_store 0 13 ∧
  set_father script_store 13 (Some 0) ≠ script_store ∧
  get_father (set_father script_store 13 (Some 0)) 13 = Some 0 ∧
  ancestor (set_father script_store 13 (Some 0)) 13 13 ∧
  ∀ fuel, get_ascendants fuel (set_father script_store 13 (Some 0)) 13 = None.
Proof.
  assert (rtc (parent script_store) 0 13) as Hpath.
  { apply rtc_l with 9; [left; reflexivity|].
    apply rtc_l with 13; [left; reflexivity|]. apply rtc_refl. }
  assert (13 < length script_store) as Hlen by (vm_compute; lia).
  pose proof (set_father_cycle script_store 13 0 Hlen Hpath) as Hcyc.
  split; [apply script_store_acyclic|]. split.
  { apply tc_l with 9; [left; reflexivity|]. apply tc_once. left. reflexivity. }
  split.
  { intros Heq.
    assert (get_father (set_father script_store 13 (Some 0)) 13
            = get_father script_store 13) as Hf by (by rewrite Heq).
    vm_compute in Hf. discriminate. }
  split; [by apply set_father_read|]. split; [done|].
  intros fuel. by apply (get_ascendants_cycle _ 13 Hcyc).
Qed.

(** C8, as amended: [become_adult] creates a new [Adult] object with the
    name and the sex of the child and the given job.  It is not an object of
    the store before the call, in particular not the child, and its father
    and mother are [None], as [Adult.__init__] leaves them.  The child
    object, like every other object, keeps its own father and mother, and
    its school becomes [None]. *)
Theorem become_adult_new_object h self jb adult h' :
  become_adult self jb h = Return adult h' →
  adult = length h ∧ adult ≠ self ∧ h !! adult = None ∧
  (∃ o, h !! self = Some o ∧
     h' !! adult = Some (Adult_init (name o) (sex o) jb)) ∧
  get_father h' adult = None ∧ get_mother h' adult = None ∧
  same_parents h h' ∧ get_school h' self = Some None.
Proof.
  intros Hr.
  destruct (become_adult_Return _ _ _ _ _ Hr) as (Hadult & Hself & Hschool).
  destruct (become_adult_object _ _ _ _ _ Hr) as (o & Ho & _ & Hnew).
  pose proof (keeps_become_adult self jb h) as Hkeep.
  rewrite Hr in Hkeep. simpl in Hkeep. subst adult.
  unfold get_father, get_mother. rewrite Hnew. simpl.
  repeat split; try done; try lia; try apply Hkeep.
  - by apply lookup_ge_None_2.
  - eauto.
Qed.

Lemma become_adult_new_object_witness :
  ∃ h', 8 = length births_store ∧ 8 ≠ 4 ∧ births_store !! 8 = None ∧
    (∃ o, births_store !! 4 = Some o ∧
       h' !! 8 = Some (Adult_init (name o) (sex o) "dancer")) ∧
    get_father h' 8 = None ∧ get_mother h' 8 = None ∧
    same_parents births_store h' ∧ get_school h' 4 = Some None.
Proof.
  exists (state_after (become_adult 4 "dancer" births_store)).
  apply (become_adult_new_object births_store 4 "dancer" 8).
  vm_compute. reflexivity.
Defined.

(** C8, as stated, fails: [child1] (4) of the script has father Ion (0)
    and mother Elena (1); [become_adult] returns object 8, which did not
    exist before and has neither father nor mother. *)
Lemma become_adult_drops_parents :
  ∃ h', become_adult 4 "dancer" births_store = Return 8 h' ∧
    births_store !! 8 = None ∧
    get_father births_store 4 = Some 0 ∧ get_mother births_store 4 = Some 1 ∧
    get_father h' 8 = None ∧ get_mother h' 8 = None.
Proof. eexists. repeat split; vm_compute; reflexivity. Qed.

(** C9: [marriage] raises [ValueError] whenever the receiver or the other
    adult already has a spouse, and no sequence of [marriage] and
    [divorce] calls leads from a store without self-marriage to a store in
    which somebody is married to themselves. *)
Theorem no_bigamy_no_self_marriage :
  (∀ h a b, is_Adult h a → married h a ∨ married h b →
     marriage a b h =
       Raise (ValueError "Both adults must be divorced to get married") h) ∧
  (∀ h cs, no_self_marriage h → no_self_marriage (perform_all cs h)).
Proof.
  split.
  - intros h a b. apply marriage_taken.
  - intros h cs. apply perform_all_no_self.
Qed.

Lemma no_bigamy_no_self_marriage_witness :
  marriage 0 1 script_store =
    Raise (ValueError "Both adults must be divorced to get married")
      script_store ∧
  no_self_marriage
    (perform_all [Divorce 1 2; Marriage 0 1; Marriage 3 3; Marriage 2 2]
       script_store).
Proof.
  destruct no_bigamy_no_self_marriage as [Hbigamy Hself]. split.
  - apply Hbigamy.
    + eexists. split; [reflexivity|]. vm_compute. repeat esplit.
    + right. exists 2. reflexivity.
  - apply Hself, script_store_no_self.
Defined.

(** C10: when [p.have_child_with(q, ...)] returns, the mother of the new
    child is the receiver [p] and its father is the argument [q], whatever
    the sexes of [p] and [q]; the child is the new last element of the
    [children_list] of both. *)
Theorem have_child_with_positions h p q nm sx sch c h' :
  have_child_with p q nm sx sch h = Return c h' →
  get_mother h' c = Some p ∧ get_father h' c = Some q ∧
  ∃ lp lq, get_children h p = Some lp ∧ get_children h q = Some lq ∧
    get_children h' p = Some (lp ++ [c]) ∧
    get_children h' q = Some (lq ++ [c]).
Proof.
  intros (-> & _ & _ & _ & Hc & Hlists)%have_child_with_Return.
  unfold get_mother, get_father. rewrite Hc. done.
Qed.

(** The receiver is the mother also when the receiver is the man: Ion (0)
    calls the method with Elena (1). *)
Lemma have_child_with_positions_witness :
  sex <$> script_store !! 0 = Some Male ∧
  let h' := state_after
    (have_child_with 0 1 "Alex" Male "Primary School" script_store) in
  get_mother h' 14 = Some 0 ∧ get_father h' 14 = Some 1 ∧
  ∃ lp lq, get_children script_store 0 = Some lp ∧
    get_children script_store 1 = Some lq ∧
    get_children h' 0 = Some (lp ++ [14]) ∧
    get_children h' 1 = Some (lq ++ [14]).
Proof.
  split; [reflexivity|].
  apply (have_child_with_positions script_store 0 1 "Alex" Male
           "Primary School" 14).
  vm_compute. reflexivity.
Defined.

(** * Further properties of the program *)

(** ** [marriage] and [divorce], case by case *)

Lemma marriage_run h a b oa ob :
  h !! a = Some oa → h !! b = Some ob → cls oa = AdultClass →
  married_to oa = Some None → married_to ob = Some None →
  marriage a b h =
    if decide (sex oa = sex ob)
    then Raise (ValueError
      "The marriage between two people with the same sex is not possible") h
    else Return () (<[b := with_married_to ob (Some a)]>
                      (<[a := with_married_to oa (Some b)]> h)).
Proof.
  intros Ha Hb Hcls Hma Hmb.
  unfold marriage, method_of, get_married_to, get_sex, getattr, setattr,
    bind, ret, raise.
  rewrite Ha. simpl. rewrite decide_True by done. rewrite Ha. simpl.
  rewrite Hma. simpl. rewrite Hb. simpl. rewrite Hmb. simpl.
  rewrite Ha. simpl. rewrite Hb. simpl.
  case_decide as Hsex; [done|].
  assert (a ≠ b) as Hab by (intros ->; by simplify_eq).
  rewrite Ha. by rewrite list_lookup_insert_ne, Hb by done.
Qed.

(** X1: [a.marriage(b)] returns exactly when [a] is an instance of
    [Adult] with no spouse, [b] has a [married_to] attribute that is
    [None], and the two are of different sex.  It then writes the two
    [married_to] attributes, each to the other, and nothing else. *)
Theorem marriage_returns_iff h a b h' :
  marriage a b h = Return () h' ↔
  ∃ oa ob, h !! a = Some oa ∧ h !! b = Some ob ∧ cls oa = AdultClass ∧
    married_to oa = Some None ∧ married_to ob = Some None ∧
    sex oa ≠ sex ob ∧
    h' = <[b := with_married_to ob (Some a)]>
           (<[a := with_married_to oa (Some b)]> h).
Proof.
  split.
  - intros Hr.
    destruct (marriage_cases a b h) as [[e He]|(Hab & oa & ob & Ha & Hb & He)];
      [congruence|].
    exists oa, ob. rewrite He in Hr. injection Hr as Hh'.
    revert He.
    unfold marriage, method_of, get_married_to, get_sex, getattr, setattr,
      bind, ret, raise.
    rewrite Ha. simpl. case_decide as Hcls; [|done]. rewrite Ha. simpl.
    destruct (married_to oa) as [[sa|]|]; simpl; [done| |done].
    rewrite Hb. simpl.
    destruct (married_to ob) as [[sb|]|]; simpl; [done| |done].
    rewrite Ha. simpl. rewrite Hb. simpl.
    case_decide as Hsex; [done|]. intros _. by repeat split.
  - intros (oa & ob & Ha & Hb & Hcls & Hma & Hmb & Hsex & ->).
    rewrite (marriage_run h a b oa ob) by done. by rewrite decide_False.
Qed.

(** X2: between two unmarried adults of the same sex, and so between an
    unmarried adult and themselves, [marriage] raises the [ValueError] of
    its second test and leaves the store as it was. *)
Theorem marriage_same_sex h a b :
  is_Adult h a → get_spouse h a = Some None → get_spouse h b = Some None →
  get_sex_of h a = get_sex_of h b →
  marriage a b h =
    Raise (ValueError
      "The marriage between two people with the same sex is not possible") h.
Proof.
  intros (oa & Ha & Hcls & _) Hsa Hsb Hsex.
  unfold get_spouse, get_sex_of in *. rewrite Ha in Hsa, Hsex. simpl in *.
  destruct (h !! b) as [ob|] eqn:Hb; [|done]. simpl in *.
  rewrite (marriage_run h a b oa ob) by done.
  rewrite decide_True; [done|]. congruence.
Qed.

Lemma marriage_same_sex_witness :
  marriage 0 8 script_store =
    Raise (ValueError
      "The marriage between two people with the same sex is not possible")
      script_store ∧
  marriage 3 3 script_store =
    Raise (ValueError
      "The marriage between two people with the same sex is not possible")
      script_store.
Proof.
  split.
  - apply (marriage_same_sex script_store 0 8); try reflexivity.
    eexists. split; [reflexivity|]. vm_compute. repeat esplit.
  - apply (marriage_same_sex script_store 3 3); try reflexivity.
    eexists. split; [reflexivity|]. vm_compute. repeat esplit.
Defined.

(** X3: a [marriage] that raises has changed nothing, and what it raises
    is one of its two [ValueError]s or an [AttributeError]. *)
Theorem marriage_raises_unchanged h a b e h' :
  marriage a b h = Raise e h' →
  h' = h ∧
  (e = ValueError "Both adults must be divorced to get married" ∨
   e = ValueError
     "The marriage between two people with the same sex is not possible" ∨
   e = AttributeError).
Proof.
  unfold marriage, method_of, get_married_to, get_sex, getattr, setattr,
    bind, ret, raise.
  destruct (h !! a) as [oa|] eqn:Ha; simpl; [|intros [= <- <-]; eauto].
  case_decide; [|intros [= <- <-]; eauto]. rewrite Ha. simpl.
  destruct (married_to oa) as [[sa|]|]; simpl;
    [intros [= <- <-]; eauto| |intros [= <- <-]; eauto].
  destruct (h !! b) as [ob|] eqn:Hb; simpl; [|intros [= <- <-]; eauto].
  destruct (married_to ob) as [[sb|]|]; simpl;
    [intros [= <- <-]; eauto| |intros [= <- <-]; eauto].
  rewrite Ha. simpl. rewrite Hb. simpl.
  case_decide as Hsex; [intros [= <- <-]; eauto|].
  assert (a ≠ b) as Hab by (intros ->; by simplify_eq).
  rewrite Ha. by rewrite list_lookup_insert_ne, Hb by done.
Qed.

Lemma marriage_raises_unchanged_witness :
  script_store = script_store ∧
  (ValueError "Both adults must be divorced to get married" =
     ValueError "Both adults must be divorced to get married" ∨
   ValueError "Both adults must be divorced to get married" =
     ValueError
       "The marriage between two people with the same sex is not possible" ∨
   ValueError "Both adults must be divorced to get married" = AttributeError).
Proof.
  apply (marriage_raises_unchanged script_store 1 0
           (ValueError "Both adults must be divorced to get married")
           script_store).
  vm_compute. reflexivity.
Defined.

Lemma with_married_to_twice o v w :
  with_married_to (with_married_to o v) w = with_married_to o w.
Proof. done. Qed.

Lemma with_married_to_same o v :
  married_to o = Some v → with_married_to o v = o.
Proof. destruct o. simpl. by intros ->. Qed.

Lemma get_spouse_insert h r o v x :
  h !! r = Some o →
  get_spouse (<[r := with_married_to o v]> h) x =
    if decide (x = r) then Some v else get_spouse h x.
Proof.
  intros Hr. unfold get_spouse. case_decide as Hx.
  - subst x. by rewrite list_lookup_insert_eq by eauto using lookup_lt_Some.
  - by rewrite list_lookup_insert_ne.
Qed.

(** The three ways a [divorce] can go. *)
Lemma divorce_run h a b oa :
  h !! a = Some oa → cls oa = AdultClass →
  divorce a b h =
    match married_to oa with
    | None => Raise AttributeError h
    | Some m =>
      if decide (m = Some b) then
        match <[a := with_married_to oa None]> h !! b with
        | Some ob =>
          Return () (<[b := with_married_to ob None]>
                       (<[a := with_married_to oa None]> h))
        | None => Raise AttributeError (<[a := with_married_to oa None]> h)
        end
      else Return () h
    end.
Proof.
  intros Ha Hcls.
  unfold divorce, method_of, get_married_to, getattr, setattr, bind, ret, raise.
  rewrite Ha. simpl. rewrite decide_True by done. rewrite Ha. simpl.
  destruct (married_to oa) as [[s|]|]; simpl; [| |done].
  - destruct (decide (s = b)) as [->|Hne].
    + rewrite !decide_True by done. rewrite Ha. done.
    + rewrite decide_False; [done|]. by intros [= ?].
  - done.
Qed.

Lemma divorce_not_Adult h a b :
  (∀ oa, h !! a = Some oa → cls oa ≠ AdultClass) →
  divorce a b h = Raise AttributeError h.
Proof.
  intros Hno.
  unfold divorce, method_of, get_married_to, getattr, setattr, bind, ret, raise.
  destruct (h !! a) as [oa|] eqn:Ha; simpl; [|done].
  rewrite decide_False; [done|]. by apply Hno.
Qed.

Lemma divorce_class_cases (h : store) (a : ref) :
  (∀ oa, h !! a = Some oa → cls oa ≠ AdultClass) ∨
  (∃ oa, h !! a = Some oa ∧ cls oa = AdultClass).
Proof.
  destruct (h !! a) as [oa|] eqn:Ha.
  - destruct (decide (cls oa = AdultClass)); [right; eauto|].
    left. by intros ? [= <-].
  - left. done.
Qed.

(** X4: [divorce] never raises a [ValueError]: called on two adults who
    are not married to each other it returns and leaves the store as it
    was, although its documentation announces the exception. *)
Theorem divorce_not_married h a b :
  (is_Adult h a → get_spouse h a ≠ Some (Some b) →
   divorce a b h = Return () h) ∧
  (∀ e h', divorce a b h = Raise e h' → e = AttributeError).
Proof.
  split.
  - intros (oa & Ha & Hcls & _ & [m Hm] & _) Hsp.
    rewrite (divorce_run h a b oa) by done. rewrite Hm.
    rewrite decide_False; [done|]. intros ->.
    apply Hsp. unfold get_spouse. by rewrite Ha.
  - intros e h'.
    destruct (divorce_class_cases h a) as [Hno|(oa & Ha & Hcls)].
    + rewrite divorce_not_Adult by done. by intros [= <- _].
    + rewrite (divorce_run h a b oa) by done.
      destruct (married_to oa) as [m|]; [|by intros [= <- _]].
      case_decide; [|done].
      destruct (_ !! b); [done | by intros [= <- _]].
Qed.

Lemma divorce_not_married_witness :
  divorce 0 1 script_store = Return () script_store ∧
  (∀ e h', divorce 0 1 script_store = Raise e h' → e = AttributeError).
Proof.
  destruct (divorce_not_married script_store 0 1) as [Hquiet Hnever].
  split; [|done]. apply Hquiet.
  - eexists. split; [reflexivity|]. vm_compute. repeat esplit.
  - vm_compute. discriminate.
Defined.

Lemma marriage_divorce (h : store) a b h1 oa ob :
  h !! a = Some oa → h !! b = Some ob → a ≠ b →
  married_to oa = Some None → married_to ob = Some None →
  <[b := with_married_to (with_married_to ob (Some a)) None]>
    (<[a := with_married_to (with_married_to oa (Some b)) None]>
       (<[b := with_married_to ob (Some a)]>
          (<[a := with_married_to oa (Some b)]> h))) = h1 →
  h1 = h.
Proof.
  intros Ha Hb Hab Hma Hmb <-.
  pose proof (lookup_lt_Some _ _ _ Ha). pose proof (lookup_lt_Some _ _ _ Hb).
  rewrite !with_married_to_twice, !with_married_to_same by done.
  apply list_eq. intros i.
  destruct (decide (i = b)) as [->|Hib].
  { by rewrite list_lookup_insert_eq by (by rewrite !length_insert). }
  rewrite list_lookup_insert_ne by done.
  destruct (decide (i = a)) as [->|Hia].
  { by rewrite list_lookup_insert_eq by (by rewrite !length_insert). }
  by rewrite !list_lookup_insert_ne by done.
Qed.

Lemma marriage_receiver_Adult h a b u h' :
  marriage a b h = Return u h' → ∃ oa, h !! a = Some oa ∧ cls oa = AdultClass.
Proof.
  unfold marriage.
  intros ([] & h1 & (-> & o & Ho & Hcls)%method_of_Return_inv & _)%bind_Return_inv.
  eauto.
Qed.

(** X5: a marriage followed by the divorce of the same two, called on
    either of them, gives back the store from before the marriage. *)
Theorem marriage_then_divorce h a b h1 :
  marriage a b h = Return () h1 →
  divorce a b h1 = Return () h ∧
  (get_class h b = Some AdultClass → divorce b a h1 = Return () h).
Proof.
  intros Hr.
  destruct (marriage_cases a b h) as [[e He]|(Hab & oa & ob & Ha & Hb & He)];
    [congruence|].
  destruct (marriage_Return _ _ _ _ _ Hr) as (_ & Hsa & Hsb & _).
  destruct (marriage_receiver_Adult _ _ _ _ _ Hr) as (oa' & Ha' & Hcls).
  unfold get_spouse in Hsa, Hsb. rewrite Ha in Hsa. rewrite Hb in Hsb.
  rewrite Ha in Ha'. injection Ha' as <-. simpl in *.
  rewrite He in Hr. injection Hr as Hh1.
  pose proof (lookup_lt_Some _ _ _ Ha). pose proof (lookup_lt_Some _ _ _ Hb).
  assert (h1 !! a = Some (with_married_to oa (Some b))) as Ha1.
  { subst h1. rewrite list_lookup_insert_ne by done.
    by rewrite list_lookup_insert_eq. }
  assert (h1 !! b = Some (with_married_to ob (Some a))) as Hb1.
  { subst h1. by rewrite list_lookup_insert_eq by (by rewrite length_insert). }
  split.
  - rewrite (divorce_run h1 a b _ Ha1) by done. simpl.
    rewrite decide_True by done.
    rewrite list_lookup_insert_ne, Hb1 by done. f_equal.
    eapply (marriage_divorce h a b); [done..|]. by subst h1.
  - unfold get_class. rewrite Hb. simpl. intros [= Hclsb].
    rewrite (divorce_run h1 b a _ Hb1) by done. simpl.
    rewrite decide_True by done.
    rewrite list_lookup_insert_ne, Ha1 by done. f_equal.
    apply list_eq. intros i. subst h1.
    rewrite !with_married_to_twice, !with_married_to_same by done.
    destruct (decide (i = a)) as [->|Hia].
    { by rewrite list_lookup_insert_eq by (by rewrite !length_insert). }
    rewrite list_lookup_insert_ne by done.
    destruct (decide (i = b)) as [->|Hib].
    { by rewrite list_lookup_insert_eq by (by rewrite !length_insert). }
    by rewrite !list_lookup_insert_ne by done.
Qed.

Lemma marriage_then_divorce_witness :
  let h1 := state_after (marriage 0 3 script_store) in
  divorce 0 3 h1 = Return () script_store ∧
  (get_class script_store 3 = Some AdultClass →
   divorce 3 0 h1 = Return () script_store).
Proof.
  apply (marriage_then_divorce script_store 0 3). vm_compute. reflexivity.
Defined.

(** ** Marriage stays mutual *)

Lemma marriage_mutual a b h : mutual h → mutual (state_after (marriage a b h)).
Proof.
  intros Hmut.
  destruct (marriage_cases a b h) as [[e ->]|(Hab & oa & ob & Ha & Hb & He)];
    [done|].
  destruct (marriage_Return _ _ _ _ _ He) as (_ & Hsa & Hsb & _).
  rewrite He. simpl.
  assert (∀ x, get_spouse
            (<[b := with_married_to ob (Some a)]>
               (<[a := with_married_to oa (Some b)]> h)) x =
          if decide (x = b) then Some (Some a)
          else if decide (x = a) then Some (Some b) else get_spouse h x)
    as Hsp.
  { intros x. rewrite get_spouse_insert by (by rewrite list_lookup_insert_ne).
    case_decide; [done|]. by rewrite get_spouse_insert. }
  intros x y. rewrite !Hsp.
  destruct (decide (x = b)) as [->|Hxb].
  { intros [= <-]. rewrite decide_False by done. by rewrite decide_True. }
  destruct (decide (x = a)) as [->|Hxa].
  { intros [= <-]. by rewrite decide_True. }
  intros Hxy. pose proof (Hmut _ _ Hxy) as Hyx.
  rewrite decide_False by (intros ->; congruence).
  rewrite decide_False by (intros ->; congruence). done.
Qed.

Lemma divorce_mutual a b h : mutual h → mutual (state_after (divorce a b h)).
Proof.
  intros Hmut.
  destruct (divorce_class_cases h a) as [Hno|(oa & Ha & Hcls)].
  { by rewrite divorce_not_Adult. }
  rewrite (divorce_run h a b oa) by done.
  destruct (married_to oa) as [m|] eqn:Hm; [|done].
  case_decide as Hmb; [subst m|done].
  assert (get_spouse h a = Some (Some b)) as Hab.
  { unfold get_spouse. by rewrite Ha. }
  pose proof (Hmut _ _ Hab) as Hba.
  assert (b < length h) as Hblt.
  { unfold get_spouse in Hba. destruct (h !! b) eqn:Hb; [|done].
    by eapply lookup_lt_Some. }
  destruct (lookup_lt_is_Some_2 (<[a := with_married_to oa None]> h) b)
    as [ob Hob]; [by rewrite length_insert|].
  rewrite Hob. simpl.
  intros x y. rewrite get_spouse_insert by done.
  case_decide as Hxb; [done|]. rewrite get_spouse_insert by done.
  case_decide as Hxa; [done|]. intros Hxy.
  pose proof (Hmut _ _ Hxy) as Hyx.
  rewrite get_spouse_insert by done.
  rewrite decide_False by (intros ->; congruence).
  rewrite get_spouse_insert by done.
  rewrite decide_False by (intros ->; congruence). done.
Qed.

Lemma perform_all_mutual cs h : mutual h → mutual (perform_all cs h).
Proof.
  revert h. induction cs as [|c cs IH]; intros h Hmut; [done|].
  simpl. apply IH. destruct c; simpl.
  - by apply marriage_mutual.
  - by apply divorce_mutual.
Qed.

Lemma mutual_check_sound h : mutual_check h = true → mutual h.
Proof.
  unfold mutual_check. rewrite forallb_forall. intros Hall a b Hab.
  assert (a < length h) as Ha.
  { unfold get_spouse in Hab. destruct (h !! a) eqn:Ho; [|done].
    by eapply lookup_lt_Some. }
  specialize (Hall a). rewrite in_seq in Hall. specialize (Hall ltac:(lia)).
  rewrite Hab in Hall. by apply bool_decide_eq_true in Hall.
Qed.

Lemma script_store_mutual : mutual script_store.
Proof. apply mutual_check_sound. by vm_compute. Qed.

(** X6: no sequence of [marriage] and [divorce] calls, raising ones
    included, breaks the mutuality of marriage: whoever has a spouse is the
    spouse of that spouse, so nobody is the spouse of two. *)
Theorem marriage_stays_mutual cs h :
  mutual h →
  mutual (perform_all cs h) ∧
  ∀ a b c, get_spouse (perform_all cs h) a = Some (Some c) →
           get_spouse (perform_all cs h) b = Some (Some c) → a = b.
Proof.
  intros Hmut. pose proof (perform_all_mutual cs h Hmut) as Hm.
  split; [done|]. intros a b c Ha Hb.
  apply Hm in Ha. apply Hm in Hb. congruence.
Qed.

Lemma marriage_stays_mutual_witness :
  let cs := [Marriage 0 3; Divorce 1 2; Marriage 1 0; Marriage 2 3] in
  mutual (perform_all cs script_store) ∧
  ∀ a b c, get_spouse (perform_all cs script_store) a = Some (Some c) →
           get_spouse (perform_all cs script_store) b = Some (Some c) → a = b.
Proof. apply (marriage_stays_mutual _ script_store script_store_mutual). Defined.

(** ** [have_child_with], case by case *)

Lemma have_child_with_run h p q nm sx sch op oq :
  h !! p = Some op → h !! q = Some oq → cls op = AdultClass →
  let child := Child_init nm sx sch p q in
  have_child_with p q nm sx sch h =
    if decide (sex op = sex oq)
    then Raise (ValueError
      "Reproduction is not possible between two people of the same sex") h
    else
      match children_list op with
      | None => Raise AttributeError (h ++ [child])
      | Some lp =>
        let h1 := <[p := with_children_list op (lp ++ [length h])]>
                    (h ++ [child]) in
        match children_list oq with
        | None => Raise AttributeError h1
        | Some lq =>
          Return (length h)
            (<[q := with_children_list oq (lq ++ [length h])]> h1)
        end
      end.
Proof.
  intros Hp Hq Hcls child.
  pose proof (lookup_lt_Some _ _ _ Hp) as Hplt.
  pose proof (lookup_lt_Some _ _ _ Hq) as Hqlt.
  unfold have_child_with, method_of, get_sex, children_append,
    get_children_list, new, getattr, setattr, bind, ret, raise.
  rewrite Hp. simpl. rewrite decide_True by done. rewrite Hp. simpl.
  rewrite Hq. simpl. case_decide as Hsex; [done|].
  assert (p ≠ q) as Hpq by (intros ->; by simplify_eq).
  simpl. rewrite lookup_app_l, Hp by done. simpl.
  destruct (children_list op) as [lp|] eqn:Hlp; simpl; [|done].
  rewrite lookup_app_l, Hp by done.
  rewrite list_lookup_insert_ne, lookup_app_l, Hq by done. simpl.
  destruct (children_list oq) as [lq|] eqn:Hlq; simpl; [|done].
  rewrite list_lookup_insert_ne, lookup_app_l, Hq by done. done.
Qed.

Lemma have_child_with_no_receiver h p q nm sx sch :
  (∀ op, h !! p = Some op → cls op ≠ AdultClass) →
  have_child_with p q nm sx sch h = Raise AttributeError h.
Proof.
  intros Hno.
  unfold have_child_with, method_of, getattr, bind, ret, raise.
  destruct (h !! p) as [op|] eqn:Hp; simpl; [|done].
  rewrite decide_False; [done|]. by apply Hno.
Qed.

Lemma have_child_with_no_other h p q nm sx sch op :
  h !! p = Some op → cls op = AdultClass → h !! q = None →
  have_child_with p q nm sx sch h = Raise AttributeError h.
Proof.
  intros Hp Hcls Hq.
  unfold have_child_with, method_of, get_sex, getattr, bind, ret, raise.
  rewrite Hp. simpl. rewrite decide_True by done. rewrite Hp. simpl.
  by rewrite Hq.
Qed.

(** X7: [p.have_child_with(q, ...)] returns exactly when [p] is an
    instance of [Adult], [q] is of the other sex, and both have a
    [children_list]; it then creates the child and appends it to the two
    lists.  Whether [p] or [q] is married, and to whom, plays no part,
    although the documentation announces a [ValueError] for the married. *)
Theorem have_child_with_returns_iff h p q nm sx sch c h' :
  have_child_with p q nm sx sch h = Return c h' ↔
  ∃ op oq lp lq, h !! p = Some op ∧ h !! q = Some oq ∧
    cls op = AdultClass ∧ sex op ≠ sex oq ∧
    children_list op = Some lp ∧ children_list oq = Some lq ∧
    c = length h ∧
    h' = <[q := with_children_list oq (lq ++ [c])]>
           (<[p := with_children_list op (lp ++ [c])]>
              (h ++ [Child_init nm sx sch p q])).
Proof.
  split.
  - intros Hr.
    destruct (h !! p) as [op|] eqn:Hp.
    2:{ rewrite have_child_with_no_receiver in Hr; [done|].
        intros op. by rewrite Hp. }
    destruct (decide (cls op = AdultClass)) as [Hcls|Hcls].
    2:{ rewrite have_child_with_no_receiver in Hr; [done|].
        intros op'. rewrite Hp. by intros [= <-]. }
    destruct (h !! q) as [oq|] eqn:Hq.
    2:{ by rewrite (have_child_with_no_other h p q nm sx sch op) in Hr. }
    rewrite (have_child_with_run h p q nm sx sch op oq) in Hr by done.
    simpl in Hr. case_decide as Hsex; [done|].
    destruct (children_list op) as [lp|] eqn:Hlp; [|done].
    destruct (children_list oq) as [lq|] eqn:Hlq; [|done].
    injection Hr as <- <-. exists op, oq, lp, lq. by repeat split.
  - intros (op & oq & lp & lq & Hp & Hq & Hcls & Hsex & Hlp & Hlq & -> & ->).
    rewrite (have_child_with_run h p q nm sx sch op oq) by done. simpl.
    rewrite decide_False by done. by rewrite Hlp, Hlq.
Qed.

(** X8: between two persons of the same sex [have_child_with] raises its
    [ValueError]; no child is created and the store stays as it was. *)
Theorem have_child_with_same_sex h p q nm sx sch :
  is_Adult h p → is_Some (h !! q) → get_sex_of h p = get_sex_of h q →
  have_child_with p q nm sx sch h =
    Raise (ValueError
      "Reproduction is not possible between two people of the same sex") h.
Proof.
  intros (op & Hp & Hcls & _) [oq Hq] Hsex.
  unfold get_sex_of in Hsex. rewrite Hp, Hq in Hsex. simpl in Hsex.
  rewrite (have_child_with_run h p q nm sx sch op oq) by done. simpl.
  rewrite decide_True; [done|]. congruence.
Qed.

Lemma have_child_with_same_sex_witness :
  have_child_with 0 2 "Dan" Male "Primary School" script_store =
    Raise (ValueError
      "Reproduction is not possible between two people of the same sex")
      script_store.
Proof.
  apply (have_child_with_same_sex script_store 0 2); try reflexivity.
  - eexists. split; [reflexivity|]. vm_compute. repeat esplit.
  - vm_compute. eauto.
Defined.

(** X9: [have_child_with] is not all-or-nothing.  When the other person is
    of the other sex but has no [children_list] (a [Child] or a plain
    [Person]), the call raises [AttributeError] only after the child has
    been created and appended to the list of the receiver. *)
Theorem have_child_with_half_done h p q nm sx sch :
  is_Adult h p → is_Some (h !! q) → get_children h q = None →
  get_sex_of h p ≠ get_sex_of h q →
  ∃ h', have_child_with p q nm sx sch h = Raise AttributeError h' ∧
    h' !! length h = Some (Child_init nm sx sch p q) ∧
    ∃ lp, get_children h p = Some lp ∧
      get_children h' p = Some (lp ++ [length h]).
Proof.
  intros (op & Hp & Hcls & _ & _ & [lp Hlp]) [oq Hq] Hnone Hsex.
  unfold get_sex_of in Hsex. rewrite Hp, Hq in Hsex. simpl in Hsex.
  unfold get_children in *. rewrite Hq in Hnone. simpl in Hnone.
  pose proof (lookup_lt_Some _ _ _ Hp) as Hplt.
  rewrite (have_child_with_run h p q nm sx sch op oq) by done. simpl.
  rewrite decide_False by congruence. rewrite Hlp, Hnone.
  eexists. split; [done|]. split.
  - rewrite list_lookup_insert_ne by lia. by apply list_lookup_middle.
  - exists lp. rewrite Hp. split; [done|].
    rewrite list_lookup_insert_eq; [done|]. rewrite length_app. lia.
Qed.

Lemma have_child_with_half_done_witness :
  ∃ h', have_child_with 3 4 "Dan" Male "Primary School" script_store =
          Raise AttributeError h' ∧
    h' !! length script_store =
      Some (Child_init "Dan" Male "Primary School" 3 4) ∧
    ∃ lp, get_children script_store 3 = Some lp ∧
      get_children h' 3 = Some (lp ++ [length script_store]).
Proof.
  apply (have_child_with_half_done script_store 3 4).
  - eexists. split; [reflexivity|]. vm_compute. repeat esplit.
  - vm_compute. eauto.
  - reflexivity.
  - vm_compute. discriminate.
Defined.

(** ** Stores only grow *)

Section Preserves.
Context (R : relation store) `{!PreOrder R}.

Lemma preserves_ret {A} (v : A) : preserves R (ret v).
Proof. intros h. simpl. reflexivity. Qed.

Lemma preserves_raise {A} e : preserves R (raise (A := A) e).
Proof. intros h. simpl. reflexivity. Qed.

Lemma preserves_getattr {A} (field : Person → option A) r :
  preserves R (getattr field r).
Proof. intros h. unfold getattr. destruct (h !! r ≫= field); reflexivity. Qed.

Lemma preserves_bind {A B} (m : M A) (k : A → M B) :
  preserves R m → (∀ a, preserves R (k a)) → preserves R (bind m k).
Proof.
  intros Hm Hk h. unfold bind. specialize (Hm h).
  destruct (m h) as [a h1|e h1]; simpl in *; [|done].
  etrans; [done | apply Hk].
Qed.

Lemma preserves_setattr upd r :
  (∀ h o, h !! r = Some o → R h (<[r := upd o]> h)) →
  preserves R (setattr upd r).
Proof.
  intros Hupd h. unfold setattr.
  destruct (h !! r) as [o|] eqn:Ho; simpl; [by apply Hupd | reflexivity].
Qed.

Lemma preserves_new o : (∀ h, R h (h ++ [o])) → preserves R (new o).
Proof. intros Hnew h. apply Hnew. Qed.

Lemma preserves_deref_mother self :
  preserves R (λ h, deref (get_mother h self) h).
Proof. intros h. destruct (get_mother h self); reflexivity. Qed.

Lemma preserves_deref_father self :
  preserves R (λ h, deref (get_father h self) h).
Proof. intros h. destruct (get_father h self); reflexivity. Qed.
End Preserves.

#[local] Instance no_shorter_preorder : PreOrder no_shorter.
Proof. split; unfold no_shorter; [intros h|intros h1 h2 h3]; lia. Qed.

Lemma no_shorter_setattr upd r : preserves no_shorter (setattr upd r).
Proof.
  apply preserves_setattr; [apply _|]. intros h o _.
  unfold no_shorter. by rewrite length_insert.
Qed.

Lemma no_shorter_new o : preserves no_shorter (new o).
Proof.
  apply preserves_new. intros h. unfold no_shorter. rewrite length_app. lia.
Qed.

(** One step of a proof that a method removes no object. *)
Ltac no_shorter_step :=
  first
    [ apply preserves_bind; [apply _| |intros ?]
    | apply no_shorter_setattr
    | apply no_shorter_new
    | apply preserves_getattr; apply _
    | apply preserves_ret; apply _
    | apply preserves_raise; apply _
    | apply preserves_deref_mother; apply _
    | apply preserves_deref_father; apply _
    | case_decide
    | case_match ].

Lemma no_shorter_marriage a b : preserves no_shorter (marriage a b).
Proof.
  unfold marriage, method_of, get_married_to, get_sex. repeat no_shorter_step.
Qed.

Lemma no_shorter_divorce a b : preserves no_shorter (divorce a b).
Proof. unfold divorce, method_of, get_married_to. repeat no_shorter_step. Qed.

Lemma no_shorter_become_adult self jb :
  preserves no_shorter (become_adult self jb).
Proof.
  unfold become_adult, method_of, get_name, get_sex, children_index,
    children_setitem, get_children_list.
  repeat no_shorter_step.
Qed.

Lemma no_shorter_have_child_with p q nm sx sch :
  preserves no_shorter (have_child_with p q nm sx sch).
Proof.
  unfold have_child_with, method_of, get_sex, children_append,
    get_children_list.
  repeat no_shorter_step.
Qed.

(** ** The methods keep the parent graph closed and acyclic *)

Lemma parent_in_range h c p : parent h c p → c < length h.
Proof.
  unfold parent, get_father, get_mother.
  intros [H|H]; destruct (h !! c) eqn:Ho; simplify_eq/=;
    by eapply lookup_lt_Some.
Qed.

Lemma grown_parent h h' x p :
  grown h h' → x < length h → parent h' x p ↔ parent h x p.
Proof.
  intros (_ & Hold & _) Hx. unfold parent.
  destruct (Hold x Hx) as [-> ->]. done.
Qed.

Lemma grown_ancestor h h' :
  grown h h' → closed h →
  ∀ x y, ancestor h' x y → y < length h ∧ (x < length h → ancestor h x y).
Proof.
  intros Hg Hcl x y. induction 1 as [x y Hxy|x y z Hxy _ [Hz IH]].
  - destruct (decide (x < length h)) as [Hx|Hx].
    + apply (grown_parent h h' x y Hg Hx) in Hxy.
      split; [by eapply Hcl|]. intros _. by apply tc_once.
    + destruct Hg as (_ & _ & Hnew). split; [|lia]. eapply Hnew; [|done]. lia.
  - split; [done|]. intros Hx.
    apply (grown_parent h h' x y Hg Hx) in Hxy.
    eapply tc_l; [done|]. apply IH. by eapply Hcl.
Qed.

Lemma grown_closed_acyclic h h' :
  grown h h' → closed h → acyclic h → closed h' ∧ acyclic h'.
Proof.
  intros Hg Hcl Hac. split.
  - intros c p Hcp.
    destruct (grown_ancestor h h' Hg Hcl c p (tc_once _ _ _ Hcp)) as [Hp _].
    destruct Hg as (Hlen & _). lia.
  - intros x Hx.
    destruct (grown_ancestor h h' Hg Hcl x x Hx) as [Hlt Hold].
    by apply (Hac x), Hold.
Qed.

Lemma grown_refl h : closed h → grown h h.
Proof.
  intros Hcl. split; [done|]. split; [done|].
  intros x p Hx Hp. apply parent_in_range in Hp. lia.
Qed.

Lemma same_parents_grown h h' :
  closed h → same_parents h h' → no_shorter h h' → grown h h'.
Proof.
  intros Hcl Hsame Hlen. split; [done|]. split; [intros x _; apply Hsame|].
  intros x p Hx Hp. apply (same_parents_parent h h' x p Hsame) in Hp.
  apply parent_in_range in Hp. lia.
Qed.

Lemma app_parents (h : store) o x :
  x < length h →
  get_father (h ++ [o]) x = get_father h x ∧
  get_mother (h ++ [o]) x = get_mother h x.
Proof. intros Hx. unfold get_father, get_mother. by rewrite lookup_app_l. Qed.

Lemma app_new_parent (h : store) o x p :
  length h ≤ x → parent (h ++ [o]) x p → father o = Some p ∨ mother o = Some p.
Proof.
  intros Hx Hp. pose proof (parent_in_range _ _ _ Hp) as Hlt.
  rewrite length_app in Hlt. simpl in Hlt.
  assert (x = length h) as -> by lia.
  unfold parent, get_father, get_mother in Hp.
  by rewrite list_lookup_middle in Hp.
Qed.

Lemma grown_new h o :
  father o = None → mother o = None → grown h (h ++ [o]).
Proof.
  intros Hf Hm. split; [rewrite length_app; lia|].
  split; [intros x Hx; by apply app_parents|].
  intros x p Hx Hp. apply app_new_parent in Hp; [|done].
  destruct Hp; congruence.
Qed.

Lemma insert_children_parents (h : store) r o l :
  h !! r = Some o → same_parents h (<[r := with_children_list o l]> h).
Proof.
  intros Hr. pose proof (keeps_setattr (λ o, with_children_list o l) r) as Hk.
  specialize (Hk ltac:(done) h). unfold setattr in Hk. by rewrite Hr in Hk.
Qed.

Lemma same_parents_after_grown h h1 h2 :
  grown h h1 → same_parents h1 h2 → length h1 = length h2 → grown h h2.
Proof.
  intros (Hlen & Hold & Hnew) Hsame Hl. split; [lia|]. split.
  - intros x Hx. destruct (Hsame x) as [-> ->]. by apply Hold.
  - intros x p Hx Hp. apply (same_parents_parent h1 h2 x p Hsame) in Hp.
    by eapply Hnew.
Qed.

Lemma grown_have_child_with h p q nm sx sch :
  closed h → grown h (state_after (have_child_with p q nm sx sch h)).
Proof.
  intros Hcl.
  destruct (h !! p) as [op|] eqn:Hp.
  2:{ rewrite have_child_with_no_receiver; [by apply grown_refl|].
      intros op. by rewrite Hp. }
  destruct (decide (cls op = AdultClass)) as [Hcls|Hcls].
  2:{ rewrite have_child_with_no_receiver; [by apply grown_refl|].
      intros op'. rewrite Hp. by intros [= <-]. }
  destruct (h !! q) as [oq|] eqn:Hq.
  2:{ rewrite (have_child_with_no_other h p q nm sx sch op) by done.
      by apply grown_refl. }
  pose proof (lookup_lt_Some _ _ _ Hp) as Hplt.
  pose proof (lookup_lt_Some _ _ _ Hq) as Hqlt.
  rewrite (have_child_with_run h p q nm sx sch op oq) by done. simpl.
  case_decide as Hsex; [by apply grown_refl|].
  assert (p ≠ q) as Hpq by (intros ->; by simplify_eq).
  assert (grown h (h ++ [Child_init nm sx sch p q])) as Hg0.
  { split; [rewrite length_app; lia|].
    split; [intros x Hx; by apply app_parents|].
    intros x y Hx Hy. apply app_new_parent in Hy; [|done].
    destruct Hy as [Hy|Hy]; simpl in Hy; by simplify_eq. }
  destruct (children_list op) as [lp|]; [|done]. simpl.
  assert (grown h (<[p := with_children_list op (lp ++ [length h])]>
                     (h ++ [Child_init nm sx sch p q]))) as Hg1.
  { apply (same_parents_after_grown h _ _ Hg0);
      [|by rewrite length_insert].
    apply insert_children_parents. by rewrite lookup_app_l. }
  destruct (children_list oq) as [lq|]; [|done]. simpl.
  apply (same_parents_after_grown h _ _ Hg1); [|by rewrite !length_insert].
  apply insert_children_parents.
  rewrite list_lookup_insert_ne by done. by rewrite lookup_app_l.
Qed.

Lemma grown_act a h : closed h → grown h (act a h).
Proof.
  intros Hcl. destruct a; simpl.
  - by apply grown_new.
  - by apply grown_new.
  - by apply grown_have_child_with.
  - apply same_parents_grown; [done|apply keeps_marriage|].
    apply no_shorter_marriage.
  - apply same_parents_grown; [done|apply keeps_divorce|].
    apply no_shorter_divorce.
  - apply same_parents_grown; [done|apply keeps_become_adult|].
    apply no_shorter_become_adult.
Qed.

Lemma act_all_closed_acyclic l h :
  closed h → acyclic h → closed (act_all l h) ∧ acyclic (act_all l h).
Proof.
  revert h. induction l as [|a l IH]; intros h Hcl Hac; [done|].
  simpl. destruct (grown_closed_acyclic h (act a h)) as [Hcl' Hac'];
    [by apply grown_act|done..|]. by apply IH.
Qed.

Lemma empty_closed_acyclic : closed [] ∧ acyclic [].
Proof.
  split.
  - intros c p Hp. apply parent_in_range in Hp. simpl in Hp. lia.
  - intros x (z & Hp)%ancestor_last. apply parent_in_range in Hp.
    simpl in Hp. lia.
Qed.

(** X10: a program that only creates persons and adults and calls
    [have_child_with], [marriage], [divorce] and [become_adult], whatever
    they raise, never builds a cycle: from the empty store every store it
    reaches has all its parent links inside the store and no node that is
    its own ancestor, so [get_ascendants] and [cousin_grade] return for
    any two of its persons. *)
Theorem methods_build_no_cycle l :
  closed (act_all l []) ∧ acyclic (act_all l []) ∧
  (∀ p, ∃ A, returns (λ fuel, get_ascendants fuel (act_all l []) p) A) ∧
  (∀ a b, ∃ g, returns (λ fuel, cousin_grade fuel (act_all l []) a b) g).
Proof.
  destruct empty_closed_acyclic as [Hcl0 Hac0].
  destruct (act_all_closed_acyclic l [] Hcl0 Hac0) as [Hcl Hac].
  split; [done|]. split; [done|]. split.
  - intros p. destruct (get_ascendants_returns _ p Hac) as (A & _ & Hr). eauto.
  - intros a b.
    destruct (cousin_grade_returns _ a b Hac)
      as (A & B & _ & _ & [[_ Hr]|(_ & k & _ & _ & _ & Hr)]); eauto.
Qed.

(** ** The cousin grade reads the parent links only *)

Lemma ascend_loop_same_parents h h' rec rec' k cur acc :
  same_parents h h' → (∀ y, rec' y = rec y) →
  ascend_loop rec' k h' cur acc = ascend_loop rec k h cur acc.
Proof.
  intros Hsame Hrec. revert cur acc.
  induction k as [|k IH]; intros cur acc; [done|].
  rewrite !ascend_loop_S. destruct (Hsame cur) as [-> ->].
  destruct (get_father h cur) as [f|], (get_mother h cur) as [m|];
    rewrite ?Hrec; try done.
  - destruct (rec f) as [Af|]; [|done]. simpl.
    destruct (rec m) as [Am|]; [|done]. simpl. apply IH.
  - destruct (rec f) as [Af|]; [|done]. simpl. apply IH.
  - destruct (rec m) as [Am|]; [|done]. simpl. apply IH.
Qed.

Lemma get_ascendants_same_parents h h' fuel p :
  same_parents h h' → get_ascendants fuel h' p = get_ascendants fuel h p.
Proof.
  intros Hsame. revert p. induction fuel as [|fuel IH]; intros p; [done|].
  rewrite !get_ascendants_S. by apply ascend_loop_same_parents.
Qed.

Lemma parents_of_same_parents h h' C :
  same_parents h h' → parents_of h' C = parents_of h C.
Proof.
  intros Hsame. apply set_eq. intros x. rewrite !elem_of_parents_of.
  by setoid_rewrite (same_parents_parent h h' _ x Hsame).
Qed.

Lemma grade_loop_same_parents h h' fuel C g :
  same_parents h h' → grade_loop fuel h' C g = grade_loop fuel h C g.
Proof.
  intros Hsame. revert C g. induction fuel as [|fuel IH]; intros C g; [done|].
  simpl. case_decide; [done|].
  rewrite (parents_of_same_parents h h') by done. apply IH.
Qed.

Lemma cousin_grade_same_parents h h' fuel a b :
  same_parents h h' → cousin_grade fuel h' a b = cousin_grade fuel h a b.
Proof.
  intros Hsame. unfold cousin_grade.
  rewrite !(get_ascendants_same_parents h h') by done.
  destruct (get_ascendants fuel h a) as [A|]; [|done].
  destruct (get_ascendants fuel h b) as [B|]; [|done]. simpl.
  case_decide; [done|]. by apply grade_loop_same_parents.
Qed.

(** X11: [marriage], [divorce] and [become_adult] change no cousin grade,
    whether they return or raise: the grade of any two persons, and the
    budget it needs, are the same after the call as before. *)
Theorem grade_unchanged_by_methods h fuel p q :
  (∀ a b, cousin_grade fuel (state_after (marriage a b h)) p q =
          cousin_grade fuel h p q) ∧
  (∀ a b, cousin_grade fuel (state_after (divorce a b h)) p q =
          cousin_grade fuel h p q) ∧
  (∀ c jb, cousin_grade fuel (state_after (become_adult c jb h)) p q =
           cousin_grade fuel h p q).
Proof.
  repeat split; intros; apply cousin_grade_same_parents.
  - apply keeps_marriage.
  - apply keeps_divorce.
  - apply keeps_become_adult.
Qed.

(** ** New objects change no grade of the old ones *)

(** Whatever the budget, [get_ascendants] returns ancestors only. *)
Lemma ascend_loop_sound h rec k cur acc A :
  (∀ y B, rec y = Some B → ∀ x, x ∈ B → ancestor h y x) →
  ascend_loop rec k h cur acc = Some A →
  ∀ x, x ∈ A → x ∈ acc ∨ ancestor h cur x.
Proof.
  intros Hrec. revert cur acc.
  induction k as [|k IH]; intros cur acc; [done|].
  rewrite ascend_loop_S.
  destruct (get_father h cur) as [f|] eqn:Hf;
    destruct (get_mother h cur) as [m|] eqn:Hm.
  - destruct (rec f) as [Af|] eqn:HAf; [|done]. simpl.
    destruct (rec m) as [Am|] eqn:HAm; [|done]. simpl.
    intros Hloop x Hx. destruct (IH _ _ Hloop x Hx) as [Hacc|Hanc].
    + rewrite (ancestor_split h cur x), Hf, Hm.
      pose proof (Hrec _ _ HAf x). pose proof (Hrec _ _ HAm x). set_solver.
    + right. eapply ancestor_step; [by left | done].
  - destruct (rec f) as [Af|] eqn:HAf; [|done]. simpl.
    intros Hloop x Hx. destruct (IH _ _ Hloop x Hx) as [Hacc|Hanc].
    + rewrite (ancestor_split h cur x), Hf, Hm.
      pose proof (Hrec _ _ HAf x). set_solver.
    + right. eapply ancestor_step; [by left | done].
  - destruct (rec m) as [Am|] eqn:HAm; [|done]. simpl.
    intros Hloop x Hx. destruct (IH _ _ Hloop x Hx) as [Hacc|Hanc].
    + rewrite (ancestor_split h cur x), Hf, Hm.
      pose proof (Hrec _ _ HAm x). set_solver.
    + right. eapply ancestor_step; [by right | done].
  - simpl. intros [= <-] x Hx. by left.
Qed.

Lemma get_ascendants_sound h fuel p A :
  get_ascendants fuel h p = Some A → ∀ x, x ∈ A → ancestor h p x.
Proof.
  revert p A. induction fuel as [|fuel IH]; intros p A; [done|].
  rewrite get_ascendants_S. intros Hloop x Hx.
  destruct (ascend_loop_sound h _ _ _ _ _ IH Hloop x Hx) as [Hacc|Hanc];
    [set_solver | done].
Qed.

Lemma closed_ancestor h c a : closed h → ancestor h c a → a < length h.
Proof. intros Hcl (z & Hz)%ancestor_last. by eapply Hcl. Qed.

Lemma ascend_loop_grown h h' rec rec' k cur acc :
  grown h h' → closed h → (∀ y, y < length h → rec' y = rec y) →
  cur < length h →
  ascend_loop rec' k h' cur acc = ascend_loop rec k h cur acc.
Proof.
  intros Hg Hcl Hrec. revert cur acc.
  induction k as [|k IH]; intros cur acc Hcur; [done|].
  rewrite !ascend_loop_S. destruct Hg as (Hlen & Hold & Hnew).
  destruct (Hold cur Hcur) as [-> ->].
  destruct (get_father h cur) as [f|] eqn:Hf;
    destruct (get_mother h cur) as [m|] eqn:Hm; try done.
  - assert (f < length h) as Hflt by (eapply Hcl; by left).
    assert (m < length h) as Hmlt by (eapply Hcl; by right).
    rewrite !Hrec by done.
    destruct (rec f) as [Af|]; [|done]. simpl.
    destruct (rec m) as [Am|]; [|done]. simpl. by apply IH.
  - assert (f < length h) as Hflt by (eapply Hcl; by left).
    rewrite !Hrec by done.
    destruct (rec f) as [Af|]; [|done]. simpl. by apply IH.
  - assert (m < length h) as Hmlt by (eapply Hcl; by right).
    rewrite !Hrec by done.
    destruct (rec m) as [Am|]; [|done]. simpl. by apply IH.
Qed.

Lemma get_ascendants_grown h h' fuel p :
  grown h h' → closed h → p < length h →
  get_ascendants fuel h' p = get_ascendants fuel h p.
Proof.
  intros Hg Hcl. revert p. induction fuel as [|fuel IH]; intros p Hp; [done|].
  rewrite !get_ascendants_S. by apply ascend_loop_grown.
Qed.

Lemma parents_of_grown h h' (C : refset) :
  grown h h' → (∀ x, x ∈ C → x < length h) →
  parents_of h' C = parents_of h C.
Proof.
  intros Hg HC. apply set_eq. intros x. rewrite !elem_of_parents_of.
  split; intros (y & Hy & Hp); exists y; (split; [done|]);
    by apply (grown_parent h h' y x Hg (HC y Hy)).
Qed.

Lemma grade_loop_grown h h' fuel (C : refset) g :
  grown h h' → closed h → (∀ x, x ∈ C → x < length h) →
  grade_loop fuel h' C g = grade_loop fuel h C g.
Proof.
  intros Hg Hcl. revert C g.
  induction fuel as [|fuel IH]; intros C g HC; [done|].
  simpl. case_decide; [done|]. rewrite (parents_of_grown h h') by done.
  apply IH. intros x (y & _ & Hp)%elem_of_parents_of. by eapply Hcl.
Qed.

Lemma cousin_grade_grown h h' fuel a b :
  grown h h' → closed h → a < length h → b < length h →
  cousin_grade fuel h' a b = cousin_grade fuel h a b.
Proof.
  intros Hg Hcl Ha Hb. unfold cousin_grade.
  rewrite !(get_ascendants_grown h h') by done.
  destruct (get_ascendants fuel h a) as [A|] eqn:HA; [|done].
  destruct (get_ascendants fuel h b) as [B|] eqn:HB; [|done]. simpl.
  case_decide; [done|]. apply grade_loop_grown; [done..|].
  intros x [Hx _]%elem_of_intersection.
  apply (closed_ancestor h a x Hcl).
  by apply (get_ascendants_sound h fuel a A).
Qed.

Lemma script_store_closed : closed script_store.
Proof.
  intros c p Hp. pose proof (parent_in_range _ _ _ Hp) as Hc.
  change (length script_store) with 14 in *.
  do 14 (destruct c as [|c];
    [destruct Hp as [Hp|Hp]; vm_compute in Hp; simplify_eq; lia|]).
  lia.
Qed.

(** X12: on a store whose parent links all point at existing objects, no
    instantiation and no method call changes the cousin grade of two
    persons that exist already: a new child gets parents, nobody gets the
    new child as a parent. *)
Theorem grade_of_old_persons_unchanged h act1 fuel a b :
  closed h → a < length h → b < length h →
  cousin_grade fuel (act act1 h) a b = cousin_grade fuel h a b.
Proof.
  intros Hcl Ha Hb. apply cousin_grade_grown; [|done..]. by apply grown_act.
Qed.

Lemma grade_of_old_persons_unchanged_witness :
  cousin_grade 10
    (act (CallHaveChildWith 3 0 "Dan" Male "Primary School") script_store)
    0 1 = cousin_grade 10 script_store 0 1.
Proof.
  apply (grade_of_old_persons_unchanged script_store).
  - apply script_store_closed.
  - vm_compute. lia.
  - vm_compute. lia.
Defined.

(** ** More about the grade *)

(** X13: when one of the two persons has a cycle among its ancestors, or
    is on one, [cousin_grade] returns nothing, whatever the budget: the
    recursion of [get_ascendants] never ends. *)
Theorem cousin_grade_never_returns_on_cycle h a b y :
  ancestor h y y → rtc (parent h) a y ∨ rtc (parent h) b y →
  ∀ fuel, cousin_grade fuel h a b = None.
Proof.
  intros Hy Hreach fuel. unfold cousin_grade. destruct Hreach as [Ha|Hb].
  - by rewrite (get_ascendants_cycle h y Hy fuel a Ha).
  - rewrite (get_ascendants_cycle h y Hy fuel b Hb).
    by destruct (get_ascendants fuel h a).
Qed.

Lemma cousin_grade_never_returns_on_cycle_witness :
  cousin_grade 1000 (set_father script_store 13 (Some 0)) 0 1 = None.
Proof.
  apply (cousin_grade_never_returns_on_cycle
           (set_father script_store 13 (Some 0)) 0 1 13).
  - apply set_father_cycle; [vm_compute; lia|].
    apply rtc_l with 9; [left; reflexivity|].
    apply rtc_l with 13; [left; reflexivity|]. apply rtc_refl.
  - left. apply rtc_l with 9; [left; reflexivity|].
    apply rtc_l with 13; [left; reflexivity|]. apply rtc_refl.
Defined.

Lemma nsteps_prefix h j k x y :
  k ≤ j → nsteps (parent h) j x y → ∃ z, nsteps (parent h) k x z.
Proof.
  intros Hle Hs. replace j with (k + (j - k)) in Hs by lia.
  apply nsteps_add_inv in Hs as (z & Hz & _). eauto.
Qed.

(** X14: the grade of two related persons is the number of generations
    on the longest line of common ancestors: some upward path of
    [grade - 1] parent steps starts at a common ancestor, and none is
    longer. *)
Theorem grade_is_longest_line h a b :
  acyclic h → (∃ x, ancestor h a x ∧ ancestor h b x) →
  ∃ k, returns (λ fuel, cousin_grade fuel h a b) (Z.of_nat (S k)) ∧
    (∃ x y, ancestor h a x ∧ ancestor h b x ∧ nsteps (parent h) k x y) ∧
    (∀ x y j, ancestor h a x → ancestor h b x →
       nsteps (parent h) j x y → j ≤ k).
Proof.
  intros Hac Hcommon.
  destruct (cousin_grade_returns h a b Hac) as (A & B & HA & HB & Hcases).
  destruct Hcases as [[He _]|(Hne & k & Hk & [Hzero Hbefore] & _ & Hr)].
  { by apply (common_ancestor_iff h a b A B HA HB) in Hcommon. }
  destruct k as [|k]; [lia|]. exists k. split; [done|]. split.
  - destruct (set_choose_L (generation h k (A ∩ B))) as [y Hy];
      [apply Hbefore; lia|].
    apply elem_of_generation in Hy as (x & [Hxa Hxb]%elem_of_intersection & Hs).
    exists x, y. split; [by apply HA|]. split; [by apply HB|done].
  - intros x y j Hxa Hxb Hs.
    destruct (decide (j ≤ k)) as [|Hgt]; [done|]. exfalso.
    destruct (nsteps_prefix h j (S k) x y ltac:(lia) Hs) as [z Hz].
    assert (z ∈ generation h (S k) (A ∩ B)) as Hin.
    { apply elem_of_generation. exists x. split; [|done].
      apply elem_of_intersection. split; [by apply HA | by apply HB]. }
    rewrite Hzero in Hin. set_solver.
Qed.

Lemma grade_is_longest_line_witness :
  ∃ k, returns (λ fuel, cousin_grade fuel script_store 0 1) (Z.of_nat (S k)) ∧
    (∃ x y, ancestor script_store 0 x ∧ ancestor script_store 1 x ∧
       nsteps (parent script_store) k x y) ∧
    (∀ x y j, ancestor script_store 0 x → ancestor script_store 1 x →
       nsteps (parent script_store) j x y → j ≤ k).
Proof.
  apply (grade_is_longest_line script_store 0 1 script_store_acyclic).
  exists 13. split.
  - apply tc_l with 9; [left; reflexivity|]. apply tc_once. left. reflexivity.
  - apply tc_l with 12; [left; reflexivity|]. apply tc_once. left. reflexivity.
Defined.

Lemma returns_agree {A} (f : nat → option A) v w :
  returns f v → returns f w → v = w.
Proof.
  intros [n Hn] [m Hm].
  pose proof (Hn (n `max` m) ltac:(lia)). pose proof (Hm (n `max` m) ltac:(lia)).
  congruence.
Qed.

Lemma cousin_grade_of_common h a b A B :
  acyclic h → ancestors_are h a A → ancestors_are h b B →
  ∃ g, returns (λ fuel, cousin_grade fuel h a b) g ∧
    ((A ∩ B = ∅ ∧ g = (-1)%Z) ∨
     (A ∩ B ≠ ∅ ∧ ∃ k, first_empty h (A ∩ B) k ∧ g = Z.of_nat k)).
Proof.
  intros Hac HA HB.
  destruct (cousin_grade_returns h a b Hac) as (A' & B' & HA' & HB' & Hcases).
  rewrite (ancestors_are_unique h a A' A HA' HA) in Hcases.
  rewrite (ancestors_are_unique h b B' B HB' HB) in Hcases.
  destruct Hcases as [[He Hr]|(Hne & k & _ & Hk & _ & Hr)]; eauto 10.
Qed.

(** X15: the grade of a person and one of its descendants is the grade of
    the person with itself: all that counts is the ancestry of the elder. *)
Theorem grade_with_descendant h a b :
  acyclic h → ancestor h b a →
  ∃ g, returns (λ fuel, cousin_grade fuel h a b) g ∧
       returns (λ fuel, cousin_grade fuel h a a) g.
Proof.
  intros Hac Hba.
  destruct (get_ascendants_returns h a Hac) as (A & HA & _).
  destruct (get_ascendants_returns h b Hac) as (B & HB & _).
  assert (A ∩ B = A ∩ A) as Heq.
  { apply set_eq. intros x. rewrite !elem_of_intersection.
    split; [tauto|]. intros [Hx _]. split; [done|].
    apply HB. eapply tc_transitive; [done|]. by apply HA. }
  destruct (cousin_grade_of_common h a b A B Hac HA HB) as (g & Hg & Hcase).
  destruct (cousin_grade_of_common h a a A A Hac HA HA) as (g' & Hg' & Hcase').
  exists g. split; [done|]. rewrite Heq in Hcase.
  destruct Hcase as [[He ->]|(Hne & k & Hk & ->)];
    destruct Hcase' as [[He' ->]|(Hne' & k' & Hk' & ->)]; try done.
  by rewrite (first_empty_unique h _ _ _ Hk Hk').
Qed.

Lemma grade_with_descendant_witness :
  ∃ g, returns (λ fuel, cousin_grade fuel script_store 9 0) g ∧
       returns (λ fuel, cousin_grade fuel script_store 9 9) g.
Proof.
  apply (grade_with_descendant script_store 9 0 script_store_acyclic).
  apply tc_once. left. reflexivity.
Defined.

(** X16: the grade of a person with itself is -1 exactly when the person
    has neither a recorded father nor a recorded mother, and otherwise
    the number of generations recorded above it. *)
Theorem grade_with_itself h a :
  acyclic h →
  ∃ g, returns (λ fuel, cousin_grade fuel h a a) g ∧
    (g = (-1)%Z ↔ get_father h a = None ∧ get_mother h a = None) ∧
    (g ≠ (-1)%Z →
     ∃ k, g = Z.of_nat (S k) ∧ (∃ y, nsteps (parent h) (S k) a y) ∧
       ∀ j y, nsteps (parent h) j a y → j ≤ S k).
Proof.
  intros Hac.
  destruct (get_ascendants_returns h a Hac) as (A & HA & _).
  destruct (cousin_grade_of_common h a a A A Hac HA HA) as (g & Hg & Hcase).
  exists g. split; [done|].
  assert (A ∩ A = A) as HAA by set_solver. rewrite HAA in Hcase.
  destruct Hcase as [[He ->]|(Hne & k & [Hzero Hbefore] & ->)].
  - split; [|done]. split; [intros _|done].
    destruct (get_father h a) as [f|] eqn:Hf.
    { assert (f ∈ A) as Hin by (apply HA, tc_once; by left). set_solver. }
    destruct (get_mother h a) as [m|] eqn:Hm; [|done].
    assert (m ∈ A) as Hin by (apply HA, tc_once; by right). set_solver.
  - destruct k as [|k]; [done|]. split.
    + split; [lia|]. intros [Hf Hm].
      apply set_choose_L in Hne as [x Hx]. apply HA in Hx.
      by eapply no_ancestor_no_parents in Hx.
    + intros _. exists k. split; [done|]. split.
      * destruct (set_choose_L (generation h k A)) as [y Hy];
          [apply Hbefore; lia|].
        apply elem_of_generation in Hy as (x & Hx & Hs).
        apply HA, ancestor_rtc in Hx as (p & Hp & Hpx).
        apply rtc_nsteps in Hpx as [n Hn].
        apply (nsteps_prefix h (S (n + k)) (S k) a y); [lia|].
        econstructor; [done|]. by eapply nsteps_trans.
      * intros j y Hs. destruct (decide (j ≤ S k)) as [|Hgt]; [done|]. exfalso.
        destruct (nsteps_prefix h j (S (S k)) a y ltac:(lia) Hs) as [z Hz].
        inversion Hz as [|? ? p ? Hap Hpz]; subst.
        assert (z ∈ generation h (S k) A) as Hin.
        { apply elem_of_generation. exists p. split; [|done].
          apply HA. by apply tc_once. }
        rewrite Hzero in Hin. set_solver.
Qed.

Lemma grade_with_itself_witness :
  ∃ g, returns (λ fuel, cousin_grade fuel script_store 0 0) g ∧
    (g = (-1)%Z ↔
     get_father script_store 0 = None ∧ get_mother script_store 0 = None) ∧
    (g ≠ (-1)%Z →
     ∃ k, g = Z.of_nat (S k) ∧ (∃ y, nsteps (parent script_store) (S k) 0 y) ∧
       ∀ j y, nsteps (parent script_store) j 0 y → j ≤ S k).
Proof. apply (grade_with_itself script_store 0 script_store_acyclic). Defined.

(** ** What [become_adult] does to the lists of the parents *)

#[local] Instance same_on_preorder {B} (f : Person → B) : PreOrder (same_on f).
Proof.
  split.
  - intros h. split; [done|]. eauto.
  - intros h1 h2 h3 [Hl12 H12] [Hl23 H23]. split; [lia|].
    intros x o Ho. destruct (H12 x o Ho) as (o2 & Ho2 & Hf2).
    destruct (H23 x o2 Ho2) as (o3 & Ho3 & Hf3). exists o3.
    split; [done | congruence].
Qed.

Lemma same_on_setattr {B} (f : Person → B) upd r :
  (∀ o, f (upd o) = f o) → preserves (same_on f) (setattr upd r).
Proof.
  intros Hupd. apply preserves_setattr; [apply _|]. intros h o Hr.
  split; [by rewrite length_insert|]. intros x ox Hx.
  destruct (decide (x = r)) as [->|Hne].
  - exists (upd o). rewrite list_lookup_insert_eq by eauto using lookup_lt_Some.
    split; [done|]. simplify_eq. apply Hupd.
  - exists ox. by rewrite list_lookup_insert_ne.
Qed.

Lemma same_on_new {B} (f : Person → B) o : preserves (same_on f) (new o).
Proof.
  apply preserves_new. intros h. split; [rewrite length_app; lia|].
  intros x ox Hx. exists ox. split; [|done].
  rewrite lookup_app_l; [done|]. by eapply lookup_lt_Some.
Qed.

(** One step of a proof that a method keeps an attribute of the objects. *)
Ltac same_on_step :=
  first
    [ apply preserves_bind; [apply _| |intros ?]
    | apply same_on_setattr; intros ?; reflexivity
    | apply same_on_new
    | apply preserves_getattr; apply _
    | apply preserves_ret; apply _
    | apply preserves_raise; apply _
    | apply preserves_deref_mother; apply _
    | apply preserves_deref_father; apply _
    | case_decide
    | case_match ].

Lemma become_adult_same_class self jb :
  preserves (same_on cls) (become_adult self jb).
Proof.
  unfold become_adult, method_of, get_name, get_sex, children_index,
    children_setitem, get_children_list.
  repeat same_on_step.
Qed.

Lemma get_children_insert (h : store) r o l x :
  h !! r = Some o →
  get_children (<[r := with_children_list o l]> h) x =
    if decide (x = r) then Some l else get_children h x.
Proof.
  intros Hr. unfold get_children. case_decide as Hx.
  - subst x. by rewrite list_lookup_insert_eq by eauto using lookup_lt_Some.
  - by rewrite list_lookup_insert_ne.
Qed.

Lemma get_children_insert_school (h : store) r o v x :
  h !! r = Some o →
  get_children (<[r := with_school o v]> h) x = get_children h x.
Proof.
  intros Hr. unfold get_children. destruct (decide (x = r)) as [->|Hx].
  - rewrite list_lookup_insert_eq by eauto using lookup_lt_Some.
    by rewrite Hr.
  - by rewrite list_lookup_insert_ne.
Qed.

Lemma children_index_find r c h i h' :
  children_index r c h = Return i h' →
  h' = h ∧ ∃ l, get_children h r = Some l ∧
    list_find (λ x, x = c) l = Some (i, c).
Proof.
  unfold children_index, get_children_list, get_children.
  intros (l & h1 & (-> & o & Ho & Hl)%getattr_Return_inv & H)%bind_Return_inv.
  destruct (list_find (λ x, x = c) l) as [[j y]|] eqn:Hfind; [|done].
  injection H as <- <-. pose proof Hfind as (_ & -> & _)%list_find_Some.
  split; [done|]. exists l. rewrite Ho. done.
Qed.

Lemma children_setitem_children r i c h u h' x :
  children_setitem r i c h = Return u h' →
  ∃ l, get_children h r = Some l ∧
    get_children h' x =
      if decide (x = r) then Some (<[i := c]> l) else get_children h x.
Proof.
  intros (o & l & Ho & Hl & ->)%children_setitem_Return_inv.
  exists l. split; [unfold get_children; by rewrite Ho|].
  by apply get_children_insert.
Qed.

Lemma get_children_app (h : store) o x :
  x ≠ length h → get_children (h ++ [o]) x = get_children h x.
Proof.
  intros Hx. unfold get_children.
  destruct (decide (x < length h)); [by rewrite lookup_app_l|].
  rewrite !lookup_ge_None_2; [done|lia|rewrite length_app; simpl; lia].
Qed.

(** What a [become_adult] that returns has read and written. *)
Lemma become_adult_lists h self jb adult h' :
  become_adult self jb h = Return adult h' →
  ∃ mo fa lm lf im ifa,
    get_mother h self = Some mo ∧ get_father h self = Some fa ∧
    get_children h mo = Some lm ∧ get_children h fa = Some lf ∧
    list_find (λ x, x = self) lm = Some (im, self) ∧
    list_find (λ x, x = self) lf = Some (ifa, self) ∧
    get_children h' mo = Some (<[im := adult]> lm) ∧
    get_children h' fa = Some (<[ifa := adult]> lf) ∧
    get_children h' adult = Some [] ∧
    ∀ x, x ≠ mo → x ≠ fa → x ≠ adult → get_children h' x = get_children h x.
Proof.
  intros Hr. destruct (become_adult_Return _ _ _ _ _ Hr) as (-> & Hself & _).
  revert Hr. unfold become_adult, get_name, get_sex.
  intros ([] & h1 & (-> & o & Ho & Hcls)%method_of_Return_inv & H)%bind_Return_inv.
  apply bind_Return_inv in H as (nm & h1 & (-> & _)%getattr_Return_inv & H).
  apply bind_Return_inv in H as (sx & h1 & (-> & _)%getattr_Return_inv & H).
  apply bind_Return_inv in H as (a & h1 & [-> ->]%new_Return_inv & H).
  set (A := Adult_init nm sx jb) in *. set (h1 := h ++ [A]) in *.
  assert (get_children h1 (length h) = Some []) as HA.
  { unfold get_children, h1. by rewrite list_lookup_middle. }
  assert (same_parents h h1) as Hsame1.
  { apply (keeps_new A); done. }
  apply bind_Return_inv in H as (mo & h2 & [-> Hmo]%deref_Return_inv & H).
  apply bind_Return_inv in H as (im & h2 & Him & H).
  apply children_index_find in Him as (-> & lm & Hlm & Him).
  assert (mo ≠ length h) as Hmo_ne.
  { intros ->. rewrite HA in Hlm. by simplify_eq. }
  apply bind_Return_inv in H as (fa & h2 & [-> Hfa]%deref_Return_inv & H).
  apply bind_Return_inv in H as (ifa & h2 & Hifa & H).
  apply children_index_find in Hifa as (-> & lf & Hlf & Hifa).
  assert (fa ≠ length h) as Hfa_ne.
  { intros ->. rewrite HA in Hlf. by simplify_eq. }
  apply bind_Return_inv in H as (mo' & h2 & [-> Hmo']%deref_Return_inv & H).
  rewrite Hmo in Hmo'. injection Hmo' as <-.
  apply bind_Return_inv in H as ([] & h2 & Hset2 & H).
  pose proof (keeps_children_setitem mo im (length h) h1) as Hkeep.
  rewrite Hset2 in Hkeep. simpl in Hkeep.
  pose proof (λ x, children_setitem_children _ _ _ _ _ _ x Hset2) as Hch2.
  apply bind_Return_inv in H as (fa' & h3 & [-> Hfa']%deref_Return_inv & H).
  destruct (Hkeep self) as [Hkf _]. rewrite Hkf, Hfa in Hfa'.
  injection Hfa' as <-.
  apply bind_Return_inv in H as ([] & h3 & Hset3 & H).
  pose proof (λ x, children_setitem_children _ _ _ _ _ _ x Hset3) as Hch3.
  apply bind_Return_inv in H as ([] & h4 & Hs & [= <-]).
  apply setattr_Return_inv in Hs as (o' & Ho' & ->).
  assert (∀ x, get_children (<[self := with_school o' None]> h3) x =
               get_children h3 x) as Hch4.
  { intros x. by apply get_children_insert_school. }
  destruct (Hsame1 self) as [Hf1 Hm1].
  exists mo, fa, lm, lf, im, ifa.
  rewrite <- Hm1, <- Hf1, <- (get_children_app h A mo),
    <- (get_children_app h A fa) by done.
  repeat split; try done.
  - rewrite Hch4. destruct (Hch3 mo) as (l3 & Hl3 & ->).
    destruct (Hch2 mo) as (l2 & Hl2 & Hmo2). rewrite decide_True in Hmo2 by done.
    rewrite Hlm in Hl2. injection Hl2 as <-.
    case_decide as Hmf; [|done]. subst fa.
    rewrite Hmo2 in Hl3. injection Hl3 as <-.
    rewrite Hlm in Hlf. injection Hlf as <-.
    rewrite Him in Hifa. injection Hifa as <-.
    by rewrite list_insert_insert_eq.
  - rewrite Hch4. destruct (Hch3 fa) as (l3 & Hl3 & ->).
    rewrite decide_True by done.
    destruct (Hch2 fa) as (l2 & Hl2 & Hfa2).
    destruct (decide (fa = mo)) as [->|Hne].
    + rewrite Hfa2 in Hl3. injection Hl3 as <-.
      rewrite Hlm in Hl2. injection Hl2 as <-.
      rewrite Hlm in Hlf. injection Hlf as <-.
      rewrite Him in Hifa. injection Hifa as <-.
      by rewrite list_insert_insert_eq.
    + rewrite Hfa2, Hlf in Hl3. by injection Hl3 as <-.
  - rewrite Hch4. destruct (Hch3 (length h)) as (l3 & _ & ->).
    rewrite decide_False by done.
    destruct (Hch2 (length h)) as (l2 & _ & ->).
    by rewrite decide_False by done.
  - intros x Hxm Hxf Hxa. rewrite Hch4.
    destruct (Hch3 x) as (l3 & _ & ->). rewrite decide_False by done.
    destruct (Hch2 x) as (l2 & _ & ->). rewrite decide_False by done.
    by apply get_children_app.
Qed.

(** X17: a [become_adult] that returns has put the new adult in the place
    of the child in the [children_list] of the mother and of the father,
    at the first position that held the child; the lists keep their
    length and their other entries, the list of the new adult is empty,
    and no other [children_list] changes. *)
Theorem become_adult_replaces_child h self jb adult h' :
  become_adult self jb h = Return adult h' →
  ∃ mo fa lm lf im ifa,
    get_mother h self = Some mo ∧ get_father h self = Some fa ∧
    get_children h mo = Some lm ∧ get_children h fa = Some lf ∧
    (lm !! im = Some self ∧ ∀ j, j < im → lm !! j ≠ Some self) ∧
    (lf !! ifa = Some self ∧ ∀ j, j < ifa → lf !! j ≠ Some self) ∧
    get_children h' mo = Some (<[im := adult]> lm) ∧
    get_children h' fa = Some (<[ifa := adult]> lf) ∧
    get_children h' adult = Some [] ∧
    ∀ x, x ≠ mo → x ≠ fa → x ≠ adult → get_children h' x = get_children h x.
Proof.
  intros (mo & fa & lm & lf & im & ifa & Hmo & Hfa & Hlm & Hlf & Him & Hifa &
          Hm' & Hf' & Ha' & Hother)%become_adult_lists.
  exists mo, fa, lm, lf, im, ifa.
  apply list_find_Some in Him as (Him & _ & Hfirst_m).
  apply list_find_Some in Hifa as (Hifa & _ & Hfirst_f).
  repeat split; try done.
  - intros j Hj Hlj. by eapply Hfirst_m.
  - intros j Hj Hlj. by eapply Hfirst_f.
Qed.

Lemma become_adult_replaces_child_witness :
  let h' := state_after (become_adult 4 "dancer" births_store) in
  ∃ mo fa lm lf im ifa,
    get_mother births_store 4 = Some mo ∧ get_father births_store 4 = Some fa ∧
    get_children births_store mo = Some lm ∧
    get_children births_store fa = Some lf ∧
    (lm !! im = Some 4 ∧ ∀ j, j < im → lm !! j ≠ Some 4) ∧
    (lf !! ifa = Some 4 ∧ ∀ j, j < ifa → lf !! j ≠ Some 4) ∧
    get_children h' mo = Some (<[im := 8]> lm) ∧
    get_children h' fa = Some (<[ifa := 8]> lf) ∧
    get_children h' 8 = Some [] ∧
    ∀ x, x ≠ mo → x ≠ fa → x ≠ 8 →
      get_children h' x = get_children births_store x.
Proof.
  apply (become_adult_replaces_child births_store 4 "dancer" 8).
  vm_compute. reflexivity.
Defined.

(** ** When [become_adult] raises *)

Lemma become_adult_no_child h self jb :
  get_class h self ≠ Some ChildClass →
  become_adult self jb h = Raise AttributeError h.
Proof.
  intros Hno. unfold become_adult, method_of, getattr, bind, ret, raise.
  unfold get_class in Hno.
  destruct (h !! self) as [o|] eqn:Ho; simpl in *; [|done].
  rewrite decide_False; [done|]. congruence.
Qed.

Lemma bind_Return_run {A B} (m : M A) (k : A → M B) h v h1 :
  m h = Return v h1 → bind m k h = k v h1.
Proof. unfold bind. by intros ->. Qed.

Lemma bind_Raise_run {A B} (m : M A) (k : A → M B) h e h1 :
  m h = Raise e h1 → bind m k h = Raise e h1.
Proof. unfold bind. by intros ->. Qed.

Lemma getattr_run {A} (field : Person → option A) r (h : store) o v :
  h !! r = Some o → field o = Some v → getattr field r h = Return v h.
Proof. intros Hr Hf. unfold getattr. rewrite Hr. simpl. by rewrite Hf. Qed.

Lemma method_of_run c r (h : store) o :
  h !! r = Some o → cls o = c → method_of c r h = Return () h.
Proof.
  intros Hr Hc. unfold method_of.
  rewrite (bind_Return_run _ _ h (cls o) h) by by eapply getattr_run.
  by rewrite decide_True.
Qed.

Lemma children_index_missing r c h l :
  get_children h r = Some l → c ∉ l →
  children_index r c h = Raise (ValueError "is not in list") h.
Proof.
  intros Hl Hnot. unfold children_index, get_children_list, get_children in *.
  destruct (h !! r) as [o|] eqn:Ho; [|done]. simpl in Hl.
  rewrite (bind_Return_run _ _ h l h) by by eapply getattr_run.
  destruct (list_find (λ x, x = c) l) as [[i y]|] eqn:Hfind; [|done].
  apply list_find_Some in Hfind as (Hi & -> & _).
  destruct Hnot. apply list_elem_of_lookup. eauto.
Qed.

Lemma become_adult_not_listed h self jb o mo lm :
  h !! self = Some o → cls o = ChildClass → mother o = Some mo →
  get_children h mo = Some lm → self ∉ lm →
  become_adult self jb h =
    Raise (ValueError "is not in list")
      (h ++ [Adult_init (name o) (sex o) jb]).
Proof.
  intros Ho Hcls Hmo Hlm Hnot.
  pose proof (lookup_lt_Some _ _ _ Ho) as Hself.
  assert (mo < length h) as Hmolt.
  { unfold get_children in Hlm. destruct (h !! mo) eqn:Hm; [|done].
    by eapply lookup_lt_Some. }
  set (A := Adult_init (name o) (sex o) jb).
  unfold become_adult.
  rewrite (bind_Return_run _ _ h () h) by by eapply method_of_run.
  rewrite (bind_Return_run _ _ h (name o) h) by by eapply getattr_run.
  rewrite (bind_Return_run _ _ h (sex o) h) by by eapply getattr_run.
  rewrite (bind_Return_run _ _ h (length h) (h ++ [A])) by done.
  rewrite (bind_Return_run _ _ (h ++ [A]) mo (h ++ [A])).
  2:{ unfold get_mother. rewrite lookup_app_l, Ho by done. simpl.
      by rewrite Hmo. }
  apply bind_Raise_run. apply (children_index_missing _ _ _ lm); [|done].
  rewrite get_children_app by lia. done.
Qed.

(** X18: [become_adult] raises [AttributeError], changing nothing, on
    anything that is not an instance of [Child]; on a child that is not in
    the [children_list] of its mother it raises the [ValueError] of
    [list.index], and no existing object is changed. *)
Theorem become_adult_raises h self jb :
  (get_class h self ≠ Some ChildClass →
   become_adult self jb h = Raise AttributeError h) ∧
  (∀ mo lm, get_class h self = Some ChildClass →
     get_mother h self = Some mo → get_children h mo = Some lm →
     self ∉ lm →
     ∃ h', become_adult self jb h = Raise (ValueError "is not in list") h' ∧
       ∀ x, x < length h → h' !! x = h !! x).
Proof.
  split; [apply become_adult_no_child|].
  intros mo lm Hcls Hmo Hlm Hnot.
  unfold get_class, get_mother in *.
  destruct (h !! self) as [o|] eqn:Ho; [|done]. simpl in *.
  eexists. split.
  - apply (become_adult_not_listed h self jb o mo lm); [done| |done..].
    congruence.
  - intros x Hx. by rewrite lookup_app_l.
Qed.

Lemma become_adult_raises_witness :
  become_adult 0 "dancer" script_store = Raise AttributeError script_store ∧
  ∃ h', become_adult 4 "singer" script_store =
          Raise (ValueError "is not in list") h' ∧
    ∀ x, x < length script_store → h' !! x = script_store !! x.
Proof.
  destruct (become_adult_raises script_store 0 "dancer") as [Hno _].
  destruct (become_adult_raises script_store 4 "singer") as [_ Hnot].
  split.
  - apply Hno. vm_compute. discriminate.
  - apply (Hnot 1 [8; 6; 7]); try reflexivity.
    intros Hin. repeat (apply elem_of_cons in Hin as [Hin|Hin]; [lia|]).
    by apply elem_of_nil in Hin.
Defined.

(** X19: a child becomes an adult once.  After a [become_adult] that
    returned, a second call on the same child, which was at one place only
    of the list of its mother, raises the [ValueError] of [list.index],
    and no existing object is changed. *)
Theorem become_adult_only_once h self jb adult h' jb2 :
  become_adult self jb h = Return adult h' → listed_once h self →
  ∃ h'', become_adult self jb2 h' = Raise (ValueError "is not in list") h'' ∧
    ∀ x, x < length h' → h'' !! x = h' !! x.
Proof.
  intros Hr Honce.
  destruct (become_adult_Return _ _ _ _ _ Hr) as (Hadult & Hself & _).
  destruct (become_adult_object _ _ _ _ _ Hr) as (o & Ho & Hcls & _).
  destruct (become_adult_lists _ _ _ _ _ Hr)
    as (mo & fa & lm & lf & im & ifa & Hmo & Hfa & Hlm & Hlf & Him & _ &
        Hm' & _).
  apply list_find_Some in Him as (Him & _ & _).
  pose proof (become_adult_same_class self jb h) as [_ Hsc].
  rewrite Hr in Hsc. simpl in Hsc.
  destruct (Hsc self o Ho) as (o' & Ho' & Hcls').
  pose proof (keeps_become_adult self jb h) as Hkeep.
  rewrite Hr in Hkeep. simpl in Hkeep.
  destruct (Hkeep self) as [_ Hmo']. rewrite Hmo in Hmo'.
  unfold get_mother in Hmo'. rewrite Ho' in Hmo'. simpl in Hmo'.
  eexists. split.
  - apply (become_adult_not_listed h' self jb2 o' mo (<[im := adult]> lm));
      [done|congruence|done..|].
    intros (j & Hj)%list_elem_of_lookup.
    destruct (decide (j = im)) as [->|Hne].
    + rewrite list_lookup_insert_eq in Hj by by eapply lookup_lt_Some.
      injection Hj as ->. lia.
    + rewrite list_lookup_insert_ne in Hj by done.
      by specialize (Honce mo lm Hmo Hlm im j Him Hj).
  - intros x Hx. by rewrite lookup_app_l.
Qed.

Lemma births_store_listed_once : listed_once births_store 4.
Proof.
  intros mo lm Hmo Hlm. vm_compute in Hmo. injection Hmo as <-.
  vm_compute in Hlm. injection Hlm as <-.
  intros [|[|[|i]]] [|[|[|j]]] Hi Hj; simplify_eq/=; done.
Qed.

Lemma become_adult_only_once_witness :
  let h' := state_after (become_adult 4 "dancer" births_store) in
  ∃ h'', become_adult 4 "singer" h' = Raise (ValueError "is not in list") h'' ∧
    ∀ x, x < length h' → h'' !! x = h' !! x.
Proof.
  apply (become_adult_only_once births_store 4 "dancer" 8).
  - vm_compute. reflexivity.
  - apply births_store_listed_once.
Defined.
